(** * Voicebill: the voice-command pipeline of [app8.py]

    A shallow embedding of the command parser, the fuzzy catalog matcher,
    the order ledger, the bounded log and the bill-export callback of
    [app8.py], followed by the properties of the specification that concern
    them.

    Conventions.
    - A Python [str] is a list of characters; the alphabet is the Latin-1
      range (code points 0..255), on which [str.lower], [str.isspace] and the
      regular-expression classes [\s], [\d], [[a-z]] and [.] are written out.
    - [int] is [Z].  Prices are Python floats in the program; the ledger
      arithmetic is kept abstract (class [PriceOps]) so that nothing below
      depends on an algebraic law that floats lack.
    - Similarity scores of [difflib] are the exact rationals [2*M/T]; the
      program holds their nearest doubles, which order the same way for all
      strings shorter than several million characters.
    - The clock, the PDF renderer and the file opener are an environment
      ([Env]); the mutable global [state], the clock position and the trace
      of external effects are threaded through a state-and-exception monad.
    - The callbacks and the listener thread take turns: a run is a sequence
      of whole operations ([step]), and no utterance arrives while
      [poll_updates] drains the queue. *)

From Stdlib Require Import Ascii String.
From Stdlib Require Import List Bool Arith PeanoNat ZArith QArith Lia Permutation.
From Stdlib Require Import Numbers.DecimalString.
Import ListNotations.
Import Ascii.
Close Scope Q_scope.
Close Scope Z_scope.

Set Implicit Arguments.

(* ------------------------------------------------------------------ *)
(** * Python strings *)

Definition str := list ascii.

(** A string literal of the source. *)
Definition py (s : String.string) : str := String.list_ascii_of_string s.
Arguments py s%_string.

Definition ord (c : ascii) : nat := nat_of_ascii c.

(** [str.isspace] on one character (also the class [\s] of [re]). *)
Definition is_space (c : ascii) : bool :=
  let n := ord c in
  ((9 <=? n) && (n <=? 13)) || ((28 <=? n) && (n <=? 32))
  || (n =? 133) || (n =? 160).

(** The class [\d]: the decimal digits. *)
Definition is_digit (c : ascii) : bool :=
  let n := ord c in (48 <=? n) && (n <=? 57).

(** The class [[a-z]]. *)
Definition is_az (c : ascii) : bool :=
  let n := ord c in (97 <=? n) && (n <=? 122).

(** The class [.] (no DOTALL flag): anything but a line feed. *)
Definition is_dot (c : ascii) : bool := negb (ord c =? 10).

Definition lower_char (c : ascii) : ascii :=
  let n := ord c in
  if ((65 <=? n) && (n <=? 90))
     || ((192 <=? n) && (n <=? 222) && negb (n =? 215))
  then ascii_of_nat (n + 32) else c.

(** [s.lower()] *)
Definition lower (s : str) : str := map lower_char s.

Fixpoint lstrip (s : str) : str :=
  match s with
  | c :: s' => if is_space c then lstrip s' else s
  | [] => []
  end.

Definition rstrip (s : str) : str := rev (lstrip (rev s)).

(** [s.strip()] *)
Definition strip (s : str) : str := rstrip (lstrip s).

Fixpoint startswith (s prefix : str) : bool :=
  match prefix, s with
  | [], _ => true
  | p :: prefix', c :: s' => Ascii.eqb c p && startswith s' prefix'
  | _ :: _, [] => false
  end.

(** [s.replace(old, "")] for a non-empty [old]: every occurrence of [old],
    found left to right without overlap, is removed.  [skip] counts the
    characters of the current occurrence that remain to be dropped. *)
Fixpoint remove_from (old : str) (skip : nat) (s : str) : str :=
  match s with
  | [] => []
  | c :: s' =>
      match skip with
      | S k => remove_from old k s'
      | O => if startswith s old
             then remove_from old (length old - 1) s'
             else c :: remove_from old 0 s'
      end
  end.

Definition replace_with_empty (s old : str) : str :=
  match old with
  | [] => s
  | _ :: _ => remove_from old 0 s
  end.

Definition str_eqb (a b : str) : bool :=
  if list_eq_dec ascii_dec a b then true else false.

(** [a < b] on strings: code-point lexicographic order. *)
Fixpoint str_ltb (a b : str) : bool :=
  match a, b with
  | [], [] => false
  | [], _ :: _ => true
  | _ :: _, [] => false
  | x :: a', y :: b' =>
      if ord x <? ord y then true
      else if ord y <? ord x then false
      else str_ltb a' b'
  end.

(** [int(s)] on a run of decimal digits, of any length. *)
Definition digit_value (c : ascii) : Z := Z.of_nat (ord c - 48).

Definition int_of_digits (s : str) : Z :=
  fold_left (fun acc c => 10 * acc + digit_value c)%Z s 0%Z.

(** [str(n)] for an integer. *)
Definition str_of_int (n : Z) : str :=
  String.list_ascii_of_string (NilZero.string_of_int (Z.to_int n)).

(* ------------------------------------------------------------------ *)
(** * The two regular expressions of [parse_quantity_and_item]

    A greedy quantifier followed by the rest of the pattern [k]: the
    quantifier first tries to take one more character and gives it back
    when the rest of the pattern fails (backtracking).  [acc] is what the
    quantifier has consumed so far; [k] receives it with the remaining
    input. *)

Section Greedy.
Variable A : Type.
Variable p : ascii -> bool.
Variable k : str -> str -> option A.

Fixpoint greedy_star (acc s : str) : option A :=
  match s with
  | c :: s' =>
      if p c then
        match greedy_star (acc ++ [c]) s' with
        | Some r => Some r
        | None => k acc s
        end
      else k acc s
  | [] => k acc []
  end.

Definition greedy_plus (s : str) : option A :=
  match s with
  | c :: s' => if p c then greedy_star [c] s' else None
  | [] => None
  end.
End Greedy.

(** [$] without MULTILINE: the end of the input, or just before a line feed
    that ends the input. *)
Definition at_end (s : str) : bool :=
  match s with
  | [] => true
  | [c] => ord c =? 10
  | _ => false
  end.

(** [\s+(.+)$], shared tail of both patterns; [g1] is group 1. *)
Definition re_tail (g1 : str) (s : str) : option (str * str) :=
  greedy_plus is_space
    (fun _ s2 =>
       greedy_plus is_dot
         (fun g2 s3 => if at_end s3 then Some (g1, g2) else None) s2) s.

(** [re.match(r'^\s*(\d+)\s+(.+)$', text)]: groups 1 and 2 on a match. *)
Definition match_digits (text : str) : option (str * str) :=
  greedy_star is_space
    (fun _ s0 => greedy_plus is_digit (fun g1 s1 => re_tail g1 s1) s0)
    [] text.

(** [re.match(r'^\s*([a-z]+)\s+(.+)$', text)]. *)
Definition match_word (text : str) : option (str * str) :=
  greedy_star is_space
    (fun _ s0 => greedy_plus is_az (fun g1 s1 => re_tail g1 s1) s0)
    [] text.

(* ------------------------------------------------------------------ *)
(** * [parse_quantity_and_item] *)

Definition words_to_num : list (str * Z) :=
  [ (py "one", 1); (py "two", 2); (py "three", 3); (py "four", 4);
    (py "five", 5); (py "six", 6); (py "seven", 7); (py "eight", 8);
    (py "nine", 9); (py "ten", 10) ]%Z.

Fixpoint dict_get (V : Type) (d : list (str * V)) (key : str) : option V :=
  match d with
  | [] => None
  | (k, v) :: d' => if str_eqb key k then Some v else dict_get d' key
  end.

Definition parse_quantity_and_item (text : str) : Z * str :=
  let text := strip (lower text) in
  match match_digits text with
  | Some (g1, g2) => (int_of_digits g1, strip g2)
  | None =>
      match match_word text with
      | Some (g1, g2) =>
          match dict_get words_to_num g1 with
          | Some n => (n, strip g2)
          | None => (1%Z, text)
          end
      | None => (1%Z, text)
      end
  end.

(** The leading token of a text, for stating what the parser recognises:
    the first maximal run of non-blank characters and what follows it. *)
Fixpoint token_split (s : str) : str * str :=
  match s with
  | c :: s' =>
      if is_space c then ([], s)
      else let '(tok, rest) := token_split s' in (c :: tok, rest)
  | [] => ([], [])
  end.

Definition nonempty (s : str) : bool :=
  match s with [] => false | _ :: _ => true end.

(** The text leads with a run of digits followed by whitespace. *)
Definition leads_with_digits (text : str) : bool :=
  let '(tok, rest) := token_split (lstrip text) in
  nonempty tok && forallb is_digit tok && nonempty rest.

(** The text leads with one of the words one..ten followed by whitespace. *)
Definition leads_with_quantity_word (text : str) : bool :=
  let '(tok, rest) := token_split (lstrip text) in
  match dict_get words_to_num tok with
  | Some _ => nonempty rest
  | None => false
  end.

(** The last [n] elements of a list. *)
Definition lastn (A : Type) (n : nat) (l : list A) : list A :=
  skipn (length l - n) l.

(* ------------------------------------------------------------------ *)
(** * [difflib]: [SequenceMatcher] and [get_close_matches]

    [get_close_matches(word, possibilities, n, cutoff)] sets [word] as the
    second sequence [b] of a [SequenceMatcher] and each possibility [x] in
    turn as the first sequence [a]. *)

(** The autojunk heuristic: when [b] has at least 200 characters, a
    character occurring more than [len(b) // 100 + 1] times is left out of
    the index [b2j] (it is "popular"), so no block starts on it. *)
Definition popular (b : str) (c : ascii) : bool :=
  (200 <=? length b) && (length b / 100 + 1 <? count_occ ascii_dec b c).

(** Length of the longest common prefix of [a] and [b] made of characters
    accepted by [ok]. *)
Fixpoint run_length (ok : ascii -> bool) (a b : str) : nat :=
  match a, b with
  | x :: a', y :: b' =>
      if Ascii.eqb x y && ok y then S (run_length ok a' b') else 0
  | _, _ => 0
  end.

Definition any_char (_ : ascii) : bool := true.

(** A block [(i, j, k)]: [a[i:i+k] == b[j:j+k]]. *)
Definition block := (nat * nat * nat)%type.
Definition block_size (m : block) : nat := snd m.

Fixpoint scan_b (ok : ascii -> bool) (asuf : str) (i : nat)
         (bsuf : str) (j : nat) (best : block) : block :=
  match bsuf with
  | [] => best
  | _ :: b' =>
      let k := run_length ok asuf bsuf in
      scan_b ok asuf i b' (S j)
             (if block_size best <? k then (i, j, k) else best)
  end.

Fixpoint scan_a (ok : ascii -> bool) (asuf : str) (i : nat) (b : str)
         (best : block) : block :=
  match asuf with
  | [] => best
  | _ :: a' => scan_a ok a' (S i) b (scan_b ok asuf i b 0 best)
  end.

(** [find_longest_match] on the slices [a] and [b]: the longest block of
    indexed (non-popular) characters, the one starting earliest in [a] and
    among those earliest in [b]; it is then extended on both sides over
    equal characters, popular or not.  [difflib] finds the block row by row
    with the table [j2len], replacing its best block only by a strictly
    longer one; the scan below meets the candidate blocks in the same
    order, by their starting points, with the same rule. *)
Definition find_longest_match (ok : ascii -> bool) (a b : str) : block :=
  let '(i, j, k) := scan_a ok a 0 b (0, 0, 0) in
  let l := run_length any_char (rev (firstn i a)) (rev (firstn j b)) in
  let r := run_length any_char (skipn (i + k) a) (skipn (j + k) b) in
  (i - l, j - l, l + k + r).

(** Total size of [get_matching_blocks]: the longest block, then the same
    to its left and to its right.  Every block has a positive size, so the
    nesting depth is at most [length a]; [fuel] bounds it. *)
Fixpoint matching_size (ok : ascii -> bool) (fuel : nat) (a b : str) : nat :=
  match fuel with
  | O => 0
  | S fuel' =>
      let '(i, j, k) := find_longest_match ok a b in
      if k =? 0 then 0
      else
        k
        + (if (0 <? i) && (0 <? j)
           then matching_size ok fuel' (firstn i a) (firstn j b) else 0)
        + (if (i + k <? length a) && (j + k <? length b)
           then matching_size ok fuel' (skipn (i + k) a) (skipn (j + k) b)
           else 0)
  end.

(** [_calculate_ratio(matches, length)] *)
Definition calculate_ratio (matches len : nat) : Q :=
  if len =? 0 then 1%Q
  else Qmake (2 * Z.of_nat matches)%Z (Pos.of_nat len).

(** [SequenceMatcher(None, a, b).ratio()] *)
Definition ratio (a b : str) : Q :=
  calculate_ratio
    (matching_size (fun c => negb (popular b c)) (length a) a b)
    (length a + length b).

(** [quick_ratio] counts the characters of [a] that still find a partner
    among the characters of [b] not yet used. *)
Fixpoint remove_one (c : ascii) (b : str) : str :=
  match b with
  | [] => []
  | y :: b' => if Ascii.eqb c y then b' else y :: remove_one c b'
  end.

Fixpoint multiset_matches (a avail : str) : nat :=
  match a with
  | [] => 0
  | x :: a' =>
      if existsb (Ascii.eqb x) avail
      then S (multiset_matches a' (remove_one x avail))
      else multiset_matches a' avail
  end.

(** [quick_ratio()] and [real_quick_ratio()], the two upper bounds on
    [ratio()] that [get_close_matches] tests first. *)
Definition quick_ratio (a b : str) : Q :=
  calculate_ratio (multiset_matches a b) (length a + length b).

Definition real_quick_ratio (a b : str) : Q :=
  calculate_ratio (Nat.min (length a) (length b)) (length a + length b).

(** A scored candidate [(s.ratio(), x)]. *)
Definition scored := (Q * str)%type.

(** [t1 > t2] on such tuples: the scores decide unless they are equal, and
    then the strings do. *)
Definition scored_gtb (t1 t2 : scored) : bool :=
  if Qeq_bool (fst t1) (fst t2) then str_ltb (snd t2) (snd t1)
  else negb (Qle_bool (fst t1) (fst t2)).

(** [max(it, default=sentinel)]: the first of the largest elements. *)
Definition py_max (l : list scored) : option scored :=
  match l with
  | [] => None
  | t :: l' =>
      Some (fold_left (fun best x => if scored_gtb x best then x else best)
                      l' t)
  end.

(** The test of [get_close_matches] on the possibility [x]. *)
Definition close_enough (word : str) (cutoff : Q) (x : str) : bool :=
  Qle_bool cutoff (real_quick_ratio x word)
  && Qle_bool cutoff (quick_ratio x word)
  && Qle_bool cutoff (ratio x word).

Inductive exn : Type :=
| ValueError (msg : str)
| TypeError (msg : str)
| KeyError (msg : str)
| OSError (msg : str).

Definition str_of_exn (e : exn) : str :=
  match e with
  | ValueError m | TypeError m | KeyError m | OSError m => m
  end.

Inductive result (A : Type) : Type :=
| Ok (a : A)
| Raise (e : exn).
Arguments Ok {A} a.
Arguments Raise {A} e.

(** [get_close_matches(word, possibilities, n=1, cutoff=cutoff)]; with
    [n = 1], [heapq.nlargest] is [max]. *)
Definition get_close_matches (word : str) (possibilities : list str)
           (cutoff : Q) : result (list str) :=
  if negb (Qle_bool 0%Q cutoff && Qle_bool cutoff 1%Q)
  then Raise (ValueError (py "cutoff must be in [0.0, 1.0]"))
  else
    let scored_list :=
      map (fun x => (ratio x word, x))
          (filter (close_enough word cutoff) possibilities) in
    match py_max scored_list with
    | Some (_, x) => Ok [x]
    | None => Ok []
    end.

(** Vocabulary for the facts about [SequenceMatcher]: [m] is a block of
    [a] and [b]; every character occurs in [s] at most as often as in [a]. *)
Definition is_block (a b : str) (m : block) : Prop :=
  let '(i, j, k) := m in
  exists a1 mid a2 b1 b2,
    a = a1 ++ mid ++ a2 /\ b = b1 ++ mid ++ b2
    /\ length a1 = i /\ length b1 = j /\ length mid = k.

Definition sub_multiset (s a : str) : Prop :=
  forall c, count_occ ascii_dec s c <= count_occ ascii_dec a c.

(* ------------------------------------------------------------------ *)
(** * Prices and the catalog *)

(** The float operations the ledger uses: [qty * price] with an integer
    [qty], [+], and the integer [0] from which [sum] starts. *)
Class PriceOps (price : Type) : Type := {
  pmul : Z -> price -> price;
  padd : price -> price -> price;
  pzero : price
}.

(** Exact prices, for running the model. *)
#[export] Instance Q_PriceOps : PriceOps Q := {
  pmul := fun n p => Qred (inject_Z n * p)%Q;
  padd := fun x y => Qred (x + y)%Q;
  pzero := 0%Q
}.

(** [price_df]: the rows of the data frame, index label and ['price']. *)
Definition catalog (price : Type) := list (str * price).

(** [list(price_df.index)] *)
Definition index (price : Type) (df : catalog price) : list str :=
  map fst df.

(** [label in price_df.index] *)
Definition index_contains (price : Type) (df : catalog price)
           (label : str) : bool :=
  existsb (str_eqb label) (index df).

(** [float(price_df.loc[label, 'price'])]: a label carried by one row
    selects a scalar; a label carried by several rows selects a Series,
    which [float] rejects. *)
Definition loc_price (price : Type) (df : catalog price) (label : str)
  : result price :=
  match filter (fun row => str_eqb label (fst row)) df with
  | [] => Raise (KeyError label)
  | [row] => Ok (snd row)
  | _ :: _ :: _ => Raise (TypeError (py "cannot convert the series to float"))
  end.

Definition default_cutoff : Q := (6 # 10)%Q.

(** [fuzzy_lookup(item_text, price_df, cutoff)]; the pair [(None, None)]
    is [None]. *)
Definition fuzzy_lookup (price : Type) (item_text : str)
           (price_df : option (catalog price)) (cutoff : Q)
  : result (option (str * price)) :=
  match price_df with
  | None => Ok None
  | Some df =>
      let item_text := lower (strip item_text) in
      if index_contains df item_text then
        match loc_price df item_text with
        | Ok p => Ok (Some (item_text, p))
        | Raise e => Raise e
        end
      else
        match get_close_matches item_text (index df) cutoff with
        | Raise e => Raise e
        | Ok [] => Ok None
        | Ok (m :: _) =>
            match loc_price df m with
            | Ok p => Ok (Some (m, p))
            | Raise e => Raise e
            end
        end
  end.

(* ------------------------------------------------------------------ *)
(** * The application state and its environment *)

Record datetime : Type := {
  year : nat; month : nat; day : nat;
  hour : nat; minute : nat; second : nat
}.

Definition str_of_nat (n : nat) : str := str_of_int (Z.of_nat n).

(** A zero-padded field of [strftime]. *)
Definition zero_pad (width n : nat) : str :=
  let d := str_of_nat n in repeat "0"%char (width - length d) ++ d.

(** [strftime("%H:%M:%S")] *)
Definition strftime_HMS (t : datetime) : str :=
  zero_pad 2 (hour t) ++ py ":" ++ zero_pad 2 (minute t) ++ py ":"
  ++ zero_pad 2 (second t).

(** [strftime('%Y%m%d_%H%M%S')] *)
Definition strftime_stamp (t : datetime) : str :=
  zero_pad 4 (year t) ++ zero_pad 2 (month t) ++ zero_pad 2 (day t)
  ++ py "_" ++ zero_pad 2 (hour t) ++ zero_pad 2 (minute t)
  ++ zero_pad 2 (second t).

Section Pipeline.
Context {price : Type} {ops : PriceOps price}.

(** A row of [state.items]: [(item, qty, rate, total)]. *)
Record LineItem : Type := {
  item : str; qty : Z; rate : price; total : price
}.

Record AppState : Type := {
  price_df : option (catalog price);
  items : list LineItem;
  logs : list str;
  is_listening : bool;
  speech_queue : list str;
  customer_name : str
}.

(** [AppState.__init__] *)
Definition init_state : AppState := {|
  price_df := None; items := []; logs := []; is_listening := false;
  speech_queue := []; customer_name := py "-"
|}.

Record BillInfo : Type := {
  store_name : str;
  bill_customer_name : str;
  customer_phone : str;
  bill_items : list LineItem;
  gst_percent : Z;
  discount_percent : Z;
  date_time : datetime
}.

(** What the program does to the outside. *)
Inductive Event : Type :=
| Talk (text : str)
| PdfWritten (filename : str) (bill : BillInfo)
| FileOpened (filename : str).

(** What the outside does to the program: the successive readings of
    [datetime.now()], whether [generate_bill_pdf] raises on a bill, and
    whether opening the written file raises. *)
Record Env : Type := {
  now : nat -> datetime;
  pdf_error : str -> BillInfo -> option exn;
  open_error : str -> option exn
}.

Variable env : Env.

Record World : Type := {
  state : AppState;
  clock : nat;
  trace : list Event
}.

(** ** A state-and-exception monad over [World] *)

Definition M (A : Type) : Type := World -> result A * World.

Definition ret (A : Type) (a : A) : M A := fun w => (Ok a, w).

Definition bind (A B : Type) (m : M A) (f : A -> M B) : M B :=
  fun w =>
    match m w with
    | (Ok a, w') => f a w'
    | (Raise e, w') => (Raise e, w')
    end.

Definition raise {A : Type} (e : exn) : M A := fun w => (Raise e, w).

(** [try: body except Exception as e: handler(e)] *)
Definition try_except (A : Type) (body : M A) (handler : exn -> M A) : M A :=
  fun w =>
    match body w with
    | (Ok a, w') => (Ok a, w')
    | (Raise e, w') => handler e w'
    end.

Definition lift (A : Type) (r : result A) : M A := fun w => (r, w).

Definition gets (A : Type) (f : AppState -> A) : M A :=
  fun w => (Ok (f (state w)), w).

Definition modify (f : AppState -> AppState) : M unit :=
  fun w => (Ok tt, {| state := f (state w); clock := clock w;
                      trace := trace w |}).

Definition emit (e : Event) : M unit :=
  fun w => (Ok tt, {| state := state w; clock := clock w;
                      trace := trace w ++ [e] |}).

(** [datetime.now()] *)
Definition datetime_now : M datetime :=
  fun w => (Ok (now env (clock w)),
            {| state := state w; clock := S (clock w);
               trace := trace w |}).

Notation "x <- m ;; k" := (bind m (fun x => k))
  (at level 61, m at next level, right associativity).
Notation "m ;;; k" := (bind m (fun _ => k))
  (at level 61, right associativity).

(** ** Field assignments on [state] *)

Definition set_items (v : list LineItem) (st : AppState) : AppState :=
  {| price_df := price_df st; items := v; logs := logs st;
     is_listening := is_listening st; speech_queue := speech_queue st;
     customer_name := customer_name st |}.

Definition set_logs (v : list str) (st : AppState) : AppState :=
  {| price_df := price_df st; items := items st; logs := v;
     is_listening := is_listening st; speech_queue := speech_queue st;
     customer_name := customer_name st |}.

Definition set_speech_queue (v : list str) (st : AppState) : AppState :=
  {| price_df := price_df st; items := items st; logs := logs st;
     is_listening := is_listening st; speech_queue := v;
     customer_name := customer_name st |}.

Definition set_customer_name (v : str) (st : AppState) : AppState :=
  {| price_df := price_df st; items := items st; logs := logs st;
     is_listening := is_listening st; speech_queue := speech_queue st;
     customer_name := v |}.

(** ** [AppState.add_log] *)

Definition log_capacity : nat := 20.

(** The list after [logs.append(entry)] and the conditional [pop(0)]. *)
Definition push_log (entry : str) (buffer : list str) : list str :=
  let buffer := buffer ++ [entry] in
  if log_capacity <? length buffer then tl buffer else buffer.

Definition log_entry (t : datetime) (text : str) : str :=
  py "[" ++ strftime_HMS t ++ py "] " ++ text.

Definition add_log (text : str) : M unit :=
  t <- datetime_now ;;
  modify (fun st => set_logs (push_log (log_entry t text) (logs st)) st).

(** [talk]: the speech runs on a thread of its own and its failures are
    swallowed; only the request is observable. *)
Definition talk (text : str) : M unit := emit (Talk text).

(** ** The body of the loop of [poll_updates] *)

(** Truth value of [match] in [if match:]. *)
Definition truthy (s : str) : bool :=
  match s with [] => false | _ :: _ => true end.

Definition process_utterance (raw : str) : M unit :=
  let text := strip (lower raw) in
  if startswith text (py "name ") then
    let name := strip (replace_with_empty text (py "name ")) in
    modify (set_customer_name name) ;;;
    add_log (py "Customer name set to " ++ name) ;;;
    talk (py "Hello " ++ name)
  else
    let '(qty, item_name) := parse_quantity_and_item text in
    df <- gets price_df ;;
    match df with
    | None =>
        add_log (py "Error: Price list not loaded!") ;;;
        talk (py "Please load price list first")
    | Some _ =>
        found <- lift (fuzzy_lookup item_name df default_cutoff) ;;
        match found with
        | Some (name, unit_rate) =>
            if truthy name then
              let line_total := pmul qty unit_rate in
              modify (fun st =>
                        set_items (items st ++
                                   [{| item := name; qty := qty;
                                       rate := unit_rate;
                                       total := line_total |}])
                                  st) ;;;
              add_log (py "Added: " ++ str_of_int qty ++ py " x " ++ name) ;;;
              talk (py "Added " ++ str_of_int qty ++ py " " ++ name)
            else
              add_log (py "Unknown item: " ++ item_name) ;;;
              talk (py "Could not find " ++ item_name)
        | None =>
            add_log (py "Unknown item: " ++ item_name) ;;;
            talk (py "Could not find " ++ item_name)
        end
    end.

(** [while not state.speech_queue.empty(): text = state.speech_queue.get() ...]
    over the utterances [pending] that the queue holds; the listener
    thread is not running meanwhile. *)
Fixpoint drain (pending : list str) : M unit :=
  match pending with
  | [] => ret tt
  | raw :: pending' =>
      modify (set_speech_queue pending') ;;;
      process_utterance raw ;;;
      drain pending'
  end.

(** [sum(x[3] for x in items)] *)
Definition subtotal (its : list LineItem) : price :=
  fold_left padd (map total its) pzero.

(** What [poll_updates] hands to the page: the log lines most recent
    first, the rows of the table and the subtotal of the summary. *)
Record View : Type := {
  log_elements : list str;
  table_body : list LineItem;
  view_subtotal : price
}.

Definition poll_updates : M View :=
  pending <- gets speech_queue ;;
  drain pending ;;;
  st <- gets (fun st => st) ;;
  ret {| log_elements := rev (logs st);
         table_body := items st;
         view_subtotal := subtotal (items st) |}.

(** ** [print_bill] *)

(** The bill export: [generate_bill_pdf], then opening the file. *)
Definition generate_bill_pdf (filename : str) (bill : BillInfo) : M unit :=
  match pdf_error env filename bill with
  | Some e => raise e
  | None => emit (PdfWritten filename bill)
  end.

Definition open_file (filename : str) : M unit :=
  match open_error env filename with
  | Some e => raise e
  | None => emit (FileOpened filename)
  end.

Inductive callback_value : Type := no_update | py_None.

Definition clear_bill (st : AppState) : AppState :=
  set_customer_name (py "-") (set_logs [] (set_items [] st)).

Definition bill_filename (t : datetime) : str :=
  py "Bill_" ++ strftime_stamp t ++ py ".pdf".

Definition make_bill_data (its : list LineItem) (customer : str)
           (t : datetime) : BillInfo :=
  {| store_name := py "ASB Cafeteria";
     bill_customer_name := customer;
     customer_phone := py "-";
     bill_items := its;
     gst_percent := 0;
     discount_percent := 0;
     date_time := t |}.

Definition print_bill : M callback_value :=
  its <- gets items ;;
  match its with
  | [] =>
      add_log (py "Cannot print empty bill.") ;;;
      ret no_update
  | _ :: _ =>
      t <- datetime_now ;;
      let filename := bill_filename t in
      customer <- gets customer_name ;;
      t' <- datetime_now ;;
      let bill_data := make_bill_data its customer t' in
      try_except
        (generate_bill_pdf filename bill_data ;;;
         add_log (py "PDF Generated: " ++ filename) ;;;
         talk (py "Bill generated successfully") ;;;
         open_file filename ;;;
         modify clear_bill ;;;
         talk (py "Bill cleared. Ready for a new bill."))
        (fun e => add_log (py "Print error: " ++ str_of_exn e)) ;;;
      ret py_None
  end.

(** ** The other writers of [state] *)

Definition set_price_df (v : option (catalog price)) (st : AppState)
  : AppState :=
  {| price_df := v; items := items st; logs := logs st;
     is_listening := is_listening st; speech_queue := speech_queue st;
     customer_name := customer_name st |}.

Definition set_is_listening (v : bool) (st : AppState) : AppState :=
  {| price_df := price_df st; items := items st; logs := logs st;
     is_listening := v; speech_queue := speech_queue st;
     customer_name := customer_name st |}.

(** [load_excel] once the sheet has been read: [rows] are its ['item'] and
    ['price'] columns, [None] when one of them is missing or the file
    cannot be read. *)
Definition load_excel (rows : option (list (str * price))) (filename : str)
  : M str :=
  match rows with
  | Some rows =>
      let df := map (fun row => (strip (lower (fst row)), snd row)) rows in
      modify (set_price_df (Some df)) ;;;
      add_log (py "Loaded " ++ filename ++ py " successfully.") ;;;
      talk (py "Price list loaded.") ;;;
      ret (py "Loaded: " ++ filename)
  | None => ret (py "Error")
  end.

(** [toggle_listening] for each of the two buttons. *)
Definition start_listening : M unit :=
  listening <- gets is_listening ;;
  if listening then ret tt
  else modify (set_is_listening true) ;;; talk (py "Listening started").

Definition stop_listening : M unit :=
  listening <- gets is_listening ;;
  if listening
  then modify (set_is_listening false) ;;; talk (py "Listening stopped")
  else ret tt.

(** [background_listener]: what one turn of its loop does to [state]. *)
Definition listener_heard (recognized : str) : M unit :=
  modify (fun st => set_speech_queue
                      (speech_queue st ++ [strip (lower recognized)]) st).

Definition listener_failed (e : exn) : M unit :=
  add_log (py "Error: " ++ str_of_exn e).

Definition listener_started : M unit :=
  add_log (py "Listener thread started. Waiting for speech...").

(** ** Runs of the application *)

Definition init_world : World :=
  {| state := init_state; clock := 0; trace := [] |}.

Inductive step : World -> World -> Prop :=
| step_load rows filename w :
    step w (snd (load_excel rows filename w))
| step_start w : step w (snd (start_listening w))
| step_stop w : step w (snd (stop_listening w))
| step_listener_started w : step w (snd (listener_started w))
| step_heard text w : step w (snd (listener_heard text w))
| step_listener_failed e w : step w (snd (listener_failed e w))
| step_poll w : step w (snd (poll_updates w))
| step_print w : step w (snd (print_bill w)).

Inductive reachable : World -> Prop :=
| reach_init : reachable init_world
| reach_step w w' : reachable w -> step w w' -> reachable w'.

(** ** Vocabulary of the properties *)

(** A run of [add_log] calls. *)
Fixpoint add_logs (texts : list str) : M unit :=
  match texts with
  | [] => ret tt
  | text :: texts' => add_log text ;;; add_logs texts'
  end.

(** The entries such a run writes when the clock stands at [c]. *)
Fixpoint entries_from (c : nat) (texts : list str) : list str :=
  match texts with
  | [] => []
  | text :: texts' => log_entry (now env c) text :: entries_from (S c) texts'
  end.

(** The sum of [qty * rate] over the rows, added up as [sum] does. *)
Definition sum_qty_rate (its : list LineItem) : price :=
  fold_left padd (map (fun it => pmul (qty it) (rate it)) its) pzero.

(** What [print_bill] asks of the outside in the world [w], and whether
    that export raises. *)
Definition export_filename (w : World) : str :=
  bill_filename (now env (clock w)).

Definition export_bill (w : World) : BillInfo :=
  make_bill_data (items (state w)) (customer_name (state w))
                 (now env (S (clock w))).

Definition export_failure (w : World) : option exn :=
  match pdf_error env (export_filename w) (export_bill w) with
  | Some e => Some e
  | None => open_error env (export_filename w)
  end.
(** A row whose total is its quantity times its rate. *)
Definition line_item_ok (it : LineItem) : Prop :=
  total it = pmul (qty it) (rate it).

Definition ledger_ok (st : AppState) : Prop := Forall line_item_ok (items st).

Definition log_bounded (st : AppState) : Prop :=
  length (logs st) <= log_capacity.

(** The invariant of the runs. *)
Definition consistent (st : AppState) : Prop :=
  ledger_ok st /\ log_bounded st.
End Pipeline.


Arguments Env price : clear implicits.
Arguments World price : clear implicits.
Arguments AppState price : clear implicits.
Arguments LineItem price : clear implicits.


(* ------------------------------------------------------------------ *)
(** * The listener thread and its two buttons *)

Section Listener.
Context {price : Type} {ops : PriceOps price}.
Variable env : Env price.

Local Notation "x <- m ;; k" := (bind m (fun x => k))
  (at level 61, m at next level, right associativity).
Local Notation "m ;;; k" := (bind m (fun _ => k))
  (at level 61, right associativity).

(** What [toggle_listening] touches besides [is_listening]: whether
    [stop_event] is set, and the listener threads it has started. *)
Record Controls : Type := {
  stop_event : bool;
  threads_started : nat
}.

(** [threading.Event()] starts cleared. *)
Definition init_controls : Controls :=
  {| stop_event := false; threads_started := 0 |}.

(** [prop_id.split('.')[0]] *)
Fixpoint before_dot (s : str) : str :=
  match s with
  | [] => []
  | c :: s' => if Ascii.eqb c "."%char then [] else c :: before_dot s'
  end.

(** The two outputs of the callback, [btn-start.disabled] and
    [btn-stop.disabled]; [None] is [no_update]. *)
Definition button_states : Type := (option bool * option bool)%type.

(** [toggle_listening]; [triggered] lists the [prop_id] of the inputs that
    fired, as [callback_context.triggered] does. *)
Definition toggle_listening (triggered : list str) (c : Controls)
  : M (price := price) (button_states * Controls) :=
  match triggered with
  | [] => ret ((None, None), c)
  | prop_id :: _ =>
      let button_id := before_dot prop_id in
      listening <- gets is_listening ;;
      if str_eqb button_id (py "btn-start") then
        if negb listening then
          let c' := {| stop_event := false;
                       threads_started := S (threads_started c) |} in
          modify (set_is_listening true) ;;;
          talk (py "Listening started") ;;;
          ret ((Some true, Some false), c')
        else ret ((None, None), c)
      else if str_eqb button_id (py "btn-stop") then
        if listening then
          let c' := {| stop_event := true;
                       threads_started := threads_started c |} in
          modify (set_is_listening false) ;;;
          talk (py "Listening stopped") ;;;
          ret ((Some false, Some true), c')
        else ret ((None, None), c)
      else ret ((None, None), c)
  end.

(** A run of clicks, each with what fired. *)
Fixpoint clicks (fired : list (list str)) (c : Controls)
  : M (price := price) Controls :=
  match fired with
  | [] => ret c
  | triggered :: fired' =>
      r <- toggle_listening triggered c ;;
      clicks fired' (snd r)
  end.





(** The click is on the button [button]. *)
Definition is_click (button : str) (triggered : list str) : bool :=
  match triggered with
  | prop_id :: _ => str_eqb (before_dot prop_id) button
  | [] => false
  end.

(** A row with a name and a quantity that is not negative; a text that
    normalisation leaves as it is. *)
Definition named_row (it : LineItem price) : Prop :=
  truthy (item it) = true /\ (0 <= qty it)%Z.

Definition normalised (text : str) : Prop := strip (lower text) = text.

(** What every run keeps besides [consistent]: named rows, a trimmed
    customer name, normalised utterances in the queue. *)
Definition tidy (st : AppState price) : Prop :=
  Forall named_row (items st)
  /\ strip (customer_name st) = customer_name st
  /\ Forall normalised (speech_queue st).

(** An effect other than writing a document. *)
Definition not_a_document (e : Event (price := price)) : Prop :=
  match e with PdfWritten _ _ => False | _ => True end.

End Listener.

(* ------------------------------------------------------------------ *)
(** * Sample runs, with exact prices *)

Definition sample_clock (n : nat) : datetime :=
  {| year := 2024; month := 5; day := 17;
     hour := 9; minute := 30; second := n |}.

(** An outside where the export works, and one where the renderer fails. *)
Definition working_env : Env Q :=
  {| now := sample_clock;
     pdf_error := fun _ _ => None;
     open_error := fun _ => None |}.

Definition failing_env : Env Q :=
  {| now := sample_clock;
     pdf_error := fun _ _ => Some (OSError (py "disk full"));
     open_error := fun _ => None |}.

Definition sample_rows : list (str * Q) :=
  [(py "Coffee ", 50%Q); (py "tea", 30%Q)].

(** The end-to-end scenario of the specification, up to the export. *)
Definition scenario_loaded : World Q :=
  snd (load_excel working_env (Some sample_rows) (py "prices.xlsx")
                  init_world).

Definition scenario_heard : World Q :=
  snd (listener_heard (py "tea")
         (snd (listener_heard (py "2 coffee")
                 (snd (listener_heard (py "name alice") scenario_loaded))))).

Definition scenario_polled : World Q :=
  snd (poll_updates working_env scenario_heard).

(** A world with one row in the ledger and a full log buffer. *)
Definition full_log_world : World Q :=
  {| state :=
       {| price_df := Some [(py "coffee", 50%Q)];
          items := [{| item := py "coffee"; qty := 1; rate := 50%Q;
                       total := 50%Q |}];
          logs := map (fun n => py "entry " ++ str_of_nat n) (seq 1 20);
          is_listening := false;
          speech_queue := [];
          customer_name := py "alice" |};
     clock := 0;
     trace := [] |}.

(* ================================================================== *)
(** * Properties *)

Unset Implicit Arguments.

(** ** Character classes *)

Ltac by_cases_on_char c :=
  destruct c as [[] [] [] [] [] [] [] []]; vm_compute; congruence.

Lemma digit_not_space (c : ascii) : is_digit c = true -> is_space c = false.
Proof. by_cases_on_char c. Qed.

Lemma az_not_space (c : ascii) : is_az c = true -> is_space c = false.
Proof. by_cases_on_char c. Qed.

Lemma str_eqb_eq (a b : str) : str_eqb a b = true <-> a = b.
Proof.
  unfold str_eqb. destruct (list_eq_dec ascii_dec a b); split; congruence.
Qed.

Lemma str_eqb_refl (a : str) : str_eqb a a = true.
Proof. now apply str_eqb_eq. Qed.

(** ** What a greedy quantifier has consumed when the pattern matches *)

Section GreedyFacts.
Variable A : Type.
Variable p : ascii -> bool.
Variable k : str -> str -> option A.

Lemma greedy_star_inv (s acc : str) (r : A) :
  greedy_star p k acc s = Some r ->
  exists m rest,
    s = m ++ rest /\ forallb p m = true /\ k (acc ++ m) rest = Some r.
Proof.
  revert acc. induction s as [|c s IH]; intros acc H; simpl in H.
  - exists [], []. repeat split; rewrite ?app_nil_r; auto.
  - destruct (p c) eqn:Hc.
    + destruct (greedy_star p k (acc ++ [c]) s) eqn:Hrec.
      * inversion H; subst. apply IH in Hrec.
        destruct Hrec as (m & rest & Hs & Hm & Hk). subst.
        exists (c :: m), rest. simpl. rewrite Hc, Hm.
        rewrite <- app_assoc in Hk. repeat split; auto.
      * exists [], (c :: s). repeat split; rewrite ?app_nil_r; auto.
    + exists [], (c :: s). repeat split; rewrite ?app_nil_r; auto.
Qed.

Lemma greedy_plus_inv (s : str) (r : A) :
  greedy_plus p k s = Some r ->
  exists c m rest,
    s = c :: m ++ rest /\ p c = true /\ forallb p m = true
    /\ k (c :: m) rest = Some r.
Proof.
  destruct s as [|c s]; simpl; [discriminate|].
  destruct (p c) eqn:Hc; [|discriminate].
  intros H. apply greedy_star_inv in H.
  destruct H as (m & rest & Hs & Hm & Hk). subst. now exists c, m, rest.
Qed.
End GreedyFacts.

Lemma re_tail_inv (g1 s a b : str) :
  re_tail g1 s = Some (a, b) ->
  a = g1 /\ exists c s', s = c :: s' /\ is_space c = true.
Proof.
  unfold re_tail. intros H.
  apply greedy_plus_inv in H.
  destruct H as (c & m & rest & Hs & Hc & _ & H1).
  apply greedy_plus_inv in H1.
  destruct H1 as (d & m' & rest' & _ & _ & _ & H2).
  destruct (at_end rest'); [|discriminate]. inversion H2; subst.
  split; [reflexivity|]. now exists c, (m ++ rest).
Qed.

(** ** The leading token *)

Lemma lstrip_blank_prefix (ws s : str) :
  forallb is_space ws = true -> lstrip (ws ++ s) = lstrip s.
Proof.
  induction ws as [|c ws IH]; simpl; [reflexivity|].
  intros H. apply andb_true_iff in H. destruct H as [-> H]. auto.
Qed.

Lemma token_split_run (p : ascii -> bool) (tok : str) (c : ascii) (rest : str) :
  (forall x, p x = true -> is_space x = false) ->
  forallb p tok = true -> is_space c = true ->
  token_split (tok ++ c :: rest) = (tok, c :: rest).
Proof.
  intros Hp. induction tok as [|x tok IH]; simpl; intros Htok Hc.
  - now rewrite Hc.
  - apply andb_true_iff in Htok. destruct Htok as [Hx Htok].
    rewrite (Hp _ Hx), (IH Htok Hc). reflexivity.
Qed.

(** A match of either pattern exposes the leading token: group 1, made of
    characters of the class [p], followed by a blank. *)
Lemma leading_group_inv (p : ascii -> bool) (text g1 g2 : str) :
  (forall x, p x = true -> is_space x = false) ->
  greedy_star is_space
    (fun _ s0 => greedy_plus p (fun g s1 => re_tail g s1) s0) [] text
  = Some (g1, g2) ->
  forallb p g1 = true /\ nonempty g1 = true
  /\ exists c rest, is_space c = true
       /\ token_split (lstrip text) = (g1, c :: rest).
Proof.
  intros Hp H.
  apply greedy_star_inv in H. destruct H as (ws & s0 & Htext & Hws & H0).
  apply greedy_plus_inv in H0. destruct H0 as (d & m & s1 & Hs0 & Hd & Hm & H1).
  apply re_tail_inv in H1. destruct H1 as (Hg1 & c & rest & Hs1 & Hc).
  subst.
  assert (Hg : forallb p (d :: m) = true) by (simpl; now rewrite Hd, Hm).
  repeat split; auto.
  exists c, rest. split; [assumption|].
  rewrite (lstrip_blank_prefix _ _ Hws).
  change ((d :: m ++ c :: rest)) with ((d :: m) ++ c :: rest).
  assert (Hl : lstrip ((d :: m) ++ c :: rest) = (d :: m) ++ c :: rest)
    by (simpl; now rewrite (Hp _ Hd)).
  rewrite Hl. now apply token_split_run with (p := p).
Qed.

Lemma match_digits_leads (text g1 g2 : str) :
  match_digits text = Some (g1, g2) -> leads_with_digits text = true.
Proof.
  intros H. apply (leading_group_inv is_digit _ _ _ digit_not_space) in H.
  destruct H as (Hd & Hne & c & rest & _ & Hsplit).
  unfold leads_with_digits. rewrite Hsplit, Hd, Hne. reflexivity.
Qed.

Lemma match_word_leads (text g1 g2 : str) (n : Z) :
  match_word text = Some (g1, g2) -> dict_get words_to_num g1 = Some n ->
  leads_with_quantity_word text = true.
Proof.
  intros H Hn. apply (leading_group_inv is_az _ _ _ az_not_space) in H.
  destruct H as (_ & _ & c & rest & _ & Hsplit).
  unfold leads_with_quantity_word. rewrite Hsplit, Hn. reflexivity.
Qed.

(** C2. [parse_quantity_and_item] returns (3, "coffee") on "3 coffee",
    (2, "coffee") on "two coffee" and (1, "coffee") on "coffee"; and on
    every input whose normalized text leads neither with a digit run
    followed by whitespace nor with one of the words one..ten followed by
    whitespace, it returns quantity 1 and the whole normalized text. *)
Theorem parse_quantity_and_item_spec :
  parse_quantity_and_item (py "3 coffee") = (3%Z, py "coffee")
  /\ parse_quantity_and_item (py "two coffee") = (2%Z, py "coffee")
  /\ parse_quantity_and_item (py "coffee") = (1%Z, py "coffee")
  /\ forall text : str,
       leads_with_digits (strip (lower text)) = false ->
       leads_with_quantity_word (strip (lower text)) = false ->
       parse_quantity_and_item text = (1%Z, strip (lower text)).
Proof.
  repeat split; try (vm_compute; reflexivity).
  intros text Hd Hw. unfold parse_quantity_and_item.
  destruct (match_digits (strip (lower text))) as [[g1 g2]|] eqn:Hm.
  - apply match_digits_leads in Hm. congruence.
  - destruct (match_word (strip (lower text))) as [[g1 g2]|] eqn:Hm2;
      [|reflexivity].
    destruct (dict_get words_to_num g1) as [n|] eqn:Hn; [|reflexivity].
    apply (match_word_leads _ _ _ _ Hm2) in Hn. congruence.
Qed.

Lemma parse_quantity_and_item_spec_witness :
  leads_with_digits (strip (lower (py "Eleven  hot teas "))) = false
  /\ leads_with_quantity_word (strip (lower (py "Eleven  hot teas "))) = false
  /\ parse_quantity_and_item (py "Eleven  hot teas ")
     = (1%Z, py "eleven  hot teas").
Proof.
  split; [vm_compute; reflexivity|].
  split; [vm_compute; reflexivity|].
  apply (proj2 (proj2 (proj2 parse_quantity_and_item_spec))
           (py "Eleven  hot teas "));
    vm_compute; reflexivity.
Defined.

(** ** The catalog *)

Section CatalogFacts.
Variable price : Type.

Lemma index_contains_In (df : catalog price) (label : str) :
  index_contains df label = true <-> In label (index df).
Proof.
  unfold index_contains. rewrite existsb_exists. split.
  - intros (k & Hin & Heq). apply str_eqb_eq in Heq. now subst.
  - intros Hin. exists label. split; [assumption|apply str_eqb_refl].
Qed.

Lemma rows_of_absent_label (df : catalog price) (label : str) :
  ~ In label (index df) ->
  filter (fun row => str_eqb label (fst row)) df = [].
Proof.
  induction df as [|[k p] df IH]; simpl; intros Hnot; [reflexivity|].
  destruct (str_eqb label k) eqn:Heq.
  - apply str_eqb_eq in Heq. subst. tauto.
  - apply IH. tauto.
Qed.

Lemma rows_of_unique_label (df : catalog price) (label : str) (p : price) :
  NoDup (index df) -> In (label, p) df ->
  filter (fun row => str_eqb label (fst row)) df = [(label, p)].
Proof.
  induction df as [|[k q] df IH]; simpl; intros Hnd Hin; [contradiction|].
  inversion Hnd as [|? ? Hk Hnd']; subst.
  destruct Hin as [Heq|Hin].
  - inversion Heq; subst. rewrite str_eqb_refl.
    now rewrite (rows_of_absent_label _ _ Hk).
  - destruct (str_eqb label k) eqn:Heq.
    + apply str_eqb_eq in Heq. subst. exfalso. apply Hk.
      apply (in_map fst) in Hin. exact Hin.
    + now apply IH.
Qed.

Lemma loc_price_unique (df : catalog price) (label : str) (p : price) :
  NoDup (index df) -> In (label, p) df -> loc_price df label = Ok p.
Proof.
  intros Hnd Hin. unfold loc_price.
  now rewrite (rows_of_unique_label _ _ _ Hnd Hin).
Qed.

(** C3. For every catalog (its names are unique) and every phrase whose
    normalized form is a catalog key, [fuzzy_lookup] returns that key with
    its price, whatever the cutoff: [get_close_matches] is not consulted,
    so no other key, however similar, can take its place. *)
Theorem fuzzy_lookup_exact_match_wins
        (df : catalog price) (phrase : str) (cutoff : Q) (p : price) :
  NoDup (index df) ->
  In (lower (strip phrase), p) df ->
  fuzzy_lookup phrase (Some df) cutoff = Ok (Some (lower (strip phrase), p)).
Proof.
  intros Hnd Hin. unfold fuzzy_lookup.
  assert (Hidx : index_contains df (lower (strip phrase)) = true).
  { apply index_contains_In. apply (in_map fst) in Hin. exact Hin. }
  rewrite Hidx, (loc_price_unique _ _ _ Hnd Hin). reflexivity.
Qed.

Lemma no_candidate_below_cutoff (word : str) (keys : list str) (cutoff : Q) :
  (forall key, In key keys -> (ratio key word < cutoff)%Q) ->
  filter (close_enough word cutoff) keys = [].
Proof.
  induction keys as [|k keys IH]; simpl; intros H; [reflexivity|].
  assert (Hk : close_enough word cutoff k = false).
  { unfold close_enough.
    assert (Hr : Qle_bool cutoff (ratio k word) = false).
    { destruct (Qle_bool cutoff (ratio k word)) eqn:E; [|reflexivity].
      apply Qle_bool_iff in E. exfalso.
      apply (Qlt_not_le _ _ (H k (or_introl eq_refl))). exact E. }
    rewrite Hr. now rewrite andb_false_r. }
  rewrite Hk. apply IH. intros key Hin. apply H. now right.
Qed.

(** C7. For every catalog and every phrase that is not an exact key and
    whose similarity to every catalog key is strictly below the cutoff (a
    cutoff within [0, 1], such as the default 0.6), [fuzzy_lookup] returns
    no match: neither a name nor a price. *)
Theorem fuzzy_lookup_below_cutoff_no_match
        (df : catalog price) (phrase : str) (cutoff : Q) :
  (0 <= cutoff)%Q -> (cutoff <= 1)%Q ->
  index_contains df (lower (strip phrase)) = false ->
  (forall key, In key (index df) ->
               (ratio key (lower (strip phrase)) < cutoff)%Q) ->
  fuzzy_lookup phrase (Some df) cutoff = Ok None.
Proof.
  intros H0 H1 Hidx Hlow. unfold fuzzy_lookup, get_close_matches.
  rewrite Hidx.
  apply Qle_bool_iff in H0. apply Qle_bool_iff in H1. rewrite H0, H1.
  simpl. now rewrite (no_candidate_below_cutoff _ _ _ Hlow).
Qed.
End CatalogFacts.

Lemma fuzzy_lookup_exact_match_wins_witness :
  let df : catalog Q := [(py "tea", 30%Q); (py "team", 45%Q)] in
  NoDup (index df)
  /\ In (lower (strip (py " Tea ")), 30%Q) df
  /\ fuzzy_lookup (py " Tea ") (Some df) default_cutoff
     = Ok (Some (py "tea", 30%Q)).
Proof.
  assert (Hnd : NoDup (index [(py "tea", 30%Q); (py "team", 45%Q)])).
  { repeat constructor; simpl; intuition discriminate. }
  assert (Hin : In (lower (strip (py " Tea ")), 30%Q)
                   [(py "tea", 30%Q); (py "team", 45%Q)]).
  { left. vm_compute. reflexivity. }
  split; [exact Hnd|]. split; [exact Hin|].
  exact (fuzzy_lookup_exact_match_wins Q _ (py " Tea ") default_cutoff 30%Q
           Hnd Hin).
Defined.

Lemma fuzzy_lookup_below_cutoff_no_match_witness :
  let df : catalog Q := [(py "coffee", 50%Q); (py "tea", 30%Q)] in
  (forall key, In key (index df) ->
               (ratio key (lower (strip (py "xyzxyz"))) < default_cutoff)%Q)
  /\ fuzzy_lookup (py "xyzxyz") (Some df) default_cutoff = Ok None.
Proof.
  assert (Hlow : forall key,
             In key (index [(py "coffee", 50%Q); (py "tea", 30%Q)]) ->
             (ratio key (lower (strip (py "xyzxyz"))) < default_cutoff)%Q).
  { intros key [<-|[<-|[]]]; vm_compute; reflexivity. }
  split; [exact Hlow|].
  apply (fuzzy_lookup_below_cutoff_no_match Q _ (py "xyzxyz") default_cutoff).
  - vm_compute. discriminate.
  - vm_compute. discriminate.
  - vm_compute. reflexivity.
  - exact Hlow.
Defined.

(** ** The order in which [max] compares scored candidates *)

Lemma ord_inj (x y : ascii) : ord x = ord y -> x = y.
Proof.
  unfold ord. intros H.
  rewrite <- (ascii_nat_embedding x), <- (ascii_nat_embedding y).
  now rewrite H.
Qed.

Lemma str_ltb_irrefl (a : str) : str_ltb a a = false.
Proof.
  induction a as [|x a IH]; simpl; [reflexivity|].
  now rewrite Nat.ltb_irrefl.
Qed.

Ltac split_ltb :=
  repeat match goal with
         | |- context [?n <? ?m] => destruct (Nat.ltb_spec n m)
         | H : context [?n <? ?m] |- _ => destruct (Nat.ltb_spec n m)
         end.

(** [a <= b] and [b <= c] give [a <= c], with [x <= y] read as "not
    [y < x]". *)
Lemma str_le_trans (a b c : str) :
  str_ltb b a = false -> str_ltb c b = false -> str_ltb c a = false.
Proof.
  revert b c. induction a as [|x a IH]; intros [|y b] [|z c]; simpl;
    try congruence.
  intros H1 H2. split_ltb; try congruence; try lia. eauto.
Qed.

Lemma str_le_antisym (a b : str) :
  str_ltb a b = false -> str_ltb b a = false -> a = b.
Proof.
  revert b. induction a as [|x a IH]; intros [|y b]; simpl; try congruence.
  intros H1 H2. split_ltb; try congruence.
  f_equal; [apply ord_inj; lia|auto].
Qed.

Lemma str_ltb_asym (a b : str) :
  str_ltb a b = true -> str_ltb b a = false.
Proof.
  revert b. induction a as [|x a IH]; intros [|y b]; simpl; try congruence.
  intros H. split_ltb; try congruence; try lia. auto.
Qed.

(** [t <= u] for scored candidates, read off [scored_gtb t u = false]. *)
Lemma scored_le_iff (t u : scored) :
  scored_gtb t u = false <->
  (fst t < fst u)%Q
  \/ ((fst t == fst u)%Q /\ str_ltb (snd u) (snd t) = false).
Proof.
  unfold scored_gtb. destruct (Qeq_bool (fst t) (fst u)) eqn:E.
  - apply Qeq_bool_iff in E. split; [now right|].
    intros [Hlt|[_ H]]; [|exact H].
    exfalso. exact (Qlt_not_eq _ _ Hlt E).
  - apply Qeq_bool_neq in E. rewrite negb_false_iff, Qle_bool_iff. split.
    + intros Hle. apply Qle_lteq in Hle. tauto.
    + intros [Hlt|[Heq _]]; [now apply Qlt_le_weak|contradiction].
Qed.

Lemma scored_le_refl (t : scored) : scored_gtb t t = false.
Proof.
  apply scored_le_iff. right. split; [reflexivity|apply str_ltb_irrefl].
Qed.

Lemma scored_le_trans (t u v : scored) :
  scored_gtb t u = false -> scored_gtb u v = false -> scored_gtb t v = false.
Proof.
  rewrite !scored_le_iff.
  intros [H1|[H1 S1]] [H2|[H2 S2]].
  - left. now apply Qlt_trans with (fst u).
  - left. now rewrite <- H2.
  - left. now rewrite H1.
  - right. split; [now rewrite H1|]. now apply str_le_trans with (snd u).
Qed.

Lemma scored_gt_le (t u : scored) :
  scored_gtb t u = true -> scored_gtb u t = false.
Proof.
  intros H. apply scored_le_iff.
  unfold scored_gtb in H. destruct (Qeq_bool (fst t) (fst u)) eqn:E.
  - apply Qeq_bool_iff in E. right. split; [now symmetry|].
    now apply str_ltb_asym.
  - left. apply Qnot_le_lt. intros Hle. apply Qle_bool_iff in Hle.
    now rewrite Hle in H.
Qed.

Lemma scored_le_antisym (t u : scored) :
  scored_gtb t u = false -> scored_gtb u t = false ->
  (fst t == fst u)%Q /\ snd t = snd u.
Proof.
  rewrite !scored_le_iff.
  intros [H1|[H1 S1]] [H2|[H2 S2]].
  - exfalso. exact (Qlt_irrefl _ (Qlt_trans _ _ _ H1 H2)).
  - exfalso. rewrite H2 in H1. exact (Qlt_irrefl _ H1).
  - exfalso. rewrite H1 in H2. exact (Qlt_irrefl _ H2).
  - split; [assumption|]. now apply str_le_antisym.
Qed.

(** [max] returns an element of the list that no element exceeds. *)
Lemma fold_max_spec (l : list scored) (t : scored) :
  let m := fold_left (fun best x => if scored_gtb x best then x else best)
                     l t in
  In m (t :: l) /\ forall y, In y (t :: l) -> scored_gtb y m = false.
Proof.
  revert t. induction l as [|x l IH]; intros t; simpl.
  - split; [now left|]. intros y [<-|[]]. apply scored_le_refl.
  - specialize (IH (if scored_gtb x t then x else t)).
    simpl in IH. destruct IH as [Hin Hmax]. split.
    + destruct Hin as [Hin|Hin]; [|now right; right].
      rewrite <- Hin. destruct (scored_gtb x t); [right|]; now left.
    + intros y [Hy|[Hy|Hy]]; subst.
      * apply scored_le_trans with (if scored_gtb x y then x else y).
        -- destruct (scored_gtb x y) eqn:E;
             [now apply scored_gt_le|apply scored_le_refl].
        -- apply Hmax. now left.
      * apply scored_le_trans with (if scored_gtb y t then y else t).
        -- destruct (scored_gtb y t) eqn:E;
             [apply scored_le_refl|assumption].
        -- apply Hmax. now left.
      * apply Hmax. now right.
Qed.

Lemma py_max_spec (l : list scored) (m : scored) :
  py_max l = Some m ->
  In m l /\ forall y, In y l -> scored_gtb y m = false.
Proof.
  destruct l as [|t l]; simpl; [discriminate|].
  intros H. inversion H; subst. apply fold_max_spec.
Qed.

(** ** [SequenceMatcher]: blocks, fuel and the two quick bounds *)

Lemma run_length_split (ok : ascii -> bool) (a b : str) :
  exists c a' b',
    a = c ++ a' /\ b = c ++ b' /\ length c = run_length ok a b.
Proof.
  revert b. induction a as [|x a IH]; intros b.
  - exists [], [], b. auto.
  - destruct b as [|y b]; [exists [], (x :: a), []; auto|].
    simpl. destruct (Ascii.eqb x y && ok y) eqn:E.
    + apply andb_true_iff in E. destruct E as [E _].
      apply Ascii.eqb_eq in E. subst y.
      destruct (IH b) as (c & a' & b' & -> & -> & Hlen).
      exists (x :: c), a', b'. simpl. auto.
    + exists [], (x :: a), (y :: b). auto.
Qed.

Lemma scan_b_block (ok : ascii -> bool) (a b pa asuf : str) :
  a = pa ++ asuf ->
  forall (bsuf pb : str) (best : block),
    b = pb ++ bsuf -> is_block a b best ->
    is_block a b (scan_b ok asuf (length pa) bsuf (length pb) best).
Proof.
  intros Ha. induction bsuf as [|y bsuf IH]; intros pb best Hb Hbest.
  - exact Hbest.
  - cbn [scan_b].
    replace (S (length pb)) with (length (pb ++ [y]))
      by (rewrite length_app; simpl; lia).
    apply IH; [now rewrite <- app_assoc|].
    destruct (block_size best <? run_length ok asuf (y :: bsuf));
      [|exact Hbest].
    destruct (run_length_split ok asuf (y :: bsuf))
      as (c & a' & b' & Ha' & Hb' & Hlen).
    exists pa, c, a', pb, b'. rewrite Ha, Hb, Ha' at 1. rewrite Hb' at 1.
    auto.
Qed.

Lemma scan_a_block (ok : ascii -> bool) (a b : str) :
  forall (asuf pa : str) (best : block),
    a = pa ++ asuf -> is_block a b best ->
    is_block a b (scan_a ok asuf (length pa) b best).
Proof.
  induction asuf as [|x asuf IH]; intros pa best Ha Hbest.
  - exact Hbest.
  - cbn [scan_a].
    replace (S (length pa)) with (length (pa ++ [x]))
      by (rewrite length_app; simpl; lia).
    apply IH; [now rewrite <- app_assoc|].
    apply (scan_b_block ok a b pa (x :: asuf) Ha (b) [] _ eq_refl Hbest).
Qed.

Lemma find_longest_match_block (ok : ascii -> bool) (a b : str) :
  is_block a b (find_longest_match ok a b).
Proof.
  unfold find_longest_match.
  assert (H0 : is_block a b (0, 0, 0))
    by (exists [], [], a, [], b; auto).
  pose proof (scan_a_block ok a b a [] _ eq_refl H0) as Hscan.
  cbn [length] in Hscan.
  destruct (scan_a ok a 0 b (0, 0, 0)) as [[i j] k].
  destruct Hscan as (a1 & mid & a2 & b1 & b2 & Ha & Hb & Hi & Hj & Hk).
  assert (Hfa : firstn i a = a1)
    by (rewrite Ha, <- Hi, firstn_app, Nat.sub_diag, firstn_all; simpl;
        apply app_nil_r).
  assert (Hfb : firstn j b = b1)
    by (rewrite Hb, <- Hj, firstn_app, Nat.sub_diag, firstn_all; simpl;
        apply app_nil_r).
  assert (Hsa : skipn (i + k) a = a2).
  { rewrite Ha, app_assoc, skipn_app, skipn_all2, length_app
      by (rewrite length_app; lia).
    replace (i + k - (length a1 + length mid)) with 0 by lia.
    reflexivity. }
  assert (Hsb : skipn (j + k) b = b2).
  { rewrite Hb, app_assoc, skipn_app, skipn_all2, length_app
      by (rewrite length_app; lia).
    replace (j + k - (length b1 + length mid)) with 0 by lia.
    reflexivity. }
  rewrite Hfa, Hfb, Hsa, Hsb.
  destruct (run_length_split any_char (rev a1) (rev b1))
    as (c & ra & rb & Hra & Hrb & Hl).
  destruct (run_length_split any_char a2 b2)
    as (d & a2' & b2' & Ha2 & Hb2 & Hr).
  rewrite <- Hl, <- Hr.
  apply (f_equal (@rev ascii)) in Hra, Hrb.
  rewrite rev_involutive, rev_app_distr in Hra, Hrb.
  exists (rev ra), (rev c ++ mid ++ d), a2', (rev rb), b2'.
  repeat split.
  - rewrite Ha, Hra, Ha2. now rewrite <- !app_assoc.
  - rewrite Hb, Hrb, Hb2. now rewrite <- !app_assoc.
  - rewrite <- Hi, Hra, length_app, !length_rev. lia.
  - rewrite <- Hj, Hrb, length_app, !length_rev. lia.
  - rewrite !length_app, length_rev. lia.
Qed.

(** The fuel [length a] that [ratio] gives is enough: more changes
    nothing. *)
Lemma matching_size_fuel (ok : ascii -> bool) (fuel fuel' : nat) :
  forall a b : str,
    length a <= fuel -> length a <= fuel' ->
    matching_size ok fuel a b = matching_size ok fuel' a b.
Proof.
  revert fuel'. induction fuel as [|fuel IH]; intros fuel' a b H1 H2.
  - destruct a; [|simpl in H1; lia].
    destruct fuel'; [reflexivity|]. simpl.
    pose proof (find_longest_match_block ok [] b) as Hblk.
    destruct (find_longest_match ok [] b) as [[i j] k].
    destruct Hblk as (a1 & mid & a2 & _ & _ & Ha & _ & _ & _ & Hk).
    destruct a1, mid; try discriminate. simpl in Hk. now subst k.
  - destruct fuel' as [|fuel'].
    + destruct a; [|simpl in H2; lia]. simpl.
      pose proof (find_longest_match_block ok [] b) as Hblk.
      destruct (find_longest_match ok [] b) as [[i j] k].
      destruct Hblk as (a1 & mid & a2 & _ & _ & Ha & _ & _ & _ & Hk).
      destruct a1, mid; try discriminate. simpl in Hk. now subst k.
    + cbn [matching_size].
      pose proof (find_longest_match_block ok a b) as Hblk.
      destruct (find_longest_match ok a b) as [[i j] k].
      destruct Hblk as (a1 & mid & a2 & b1 & b2 & Ha & _ & Hi & _ & Hk).
      destruct (Nat.eqb_spec k 0) as [|Hpos]; [reflexivity|].
      assert (Hlen : length a = i + k + length a2)
        by (rewrite Ha, !length_app; lia).
      f_equal; [f_equal|].
      * destruct ((0 <? i) && (0 <? j)); [|reflexivity].
        apply IH; rewrite length_firstn; lia.
      * destruct ((i + k <? length a) && (j + k <? length b));
          [|reflexivity].
        apply IH; rewrite length_skipn; lia.
Qed.

Lemma count_remove_one_same (x : ascii) (l : str) :
  count_occ ascii_dec (remove_one x l) x = pred (count_occ ascii_dec l x).
Proof.
  induction l as [|y l IH]; simpl; [reflexivity|].
  destruct (Ascii.eqb_spec x y) as [->|Hne].
  - now destruct (ascii_dec y y).
  - simpl. destruct (ascii_dec y x); [congruence|exact IH].
Qed.

Lemma count_remove_one_other (x c : ascii) (l : str) :
  c <> x ->
  count_occ ascii_dec (remove_one x l) c = count_occ ascii_dec l c.
Proof.
  intros Hne. induction l as [|y l IH]; simpl; [reflexivity|].
  destruct (Ascii.eqb_spec x y) as [->|Hxy].
  - destruct (ascii_dec y c); [congruence|reflexivity].
  - simpl. destruct (ascii_dec y c); now rewrite IH.
Qed.

Lemma length_remove_one (x : ascii) (l : str) :
  length l <= S (length (remove_one x l)).
Proof.
  induction l as [|y l IH]; simpl; [lia|].
  destruct (Ascii.eqb x y); simpl; lia.
Qed.

Lemma length_remove_one_found (x : ascii) (l : str) :
  existsb (Ascii.eqb x) l = true ->
  length l = S (length (remove_one x l)).
Proof.
  induction l as [|y l IH]; simpl; [discriminate|].
  destruct (Ascii.eqb x y); simpl; [reflexivity|].
  intros H. now rewrite <- IH.
Qed.

Lemma count_of_absent (x : ascii) (l : str) :
  existsb (Ascii.eqb x) l = false -> count_occ ascii_dec l x = 0.
Proof.
  induction l as [|y l IH]; simpl; [reflexivity|].
  destruct (Ascii.eqb_spec x y) as [->|Hne]; simpl; [discriminate|].
  destruct (ascii_dec y x); [congruence|exact IH].
Qed.

Lemma sub_multiset_remove_one (x : ascii) (s l : str) :
  sub_multiset s l -> sub_multiset (remove_one x s) (remove_one x l).
Proof.
  intros H c. destruct (ascii_dec c x) as [->|Hne].
  - rewrite !count_remove_one_same. specialize (H x). lia.
  - rewrite !count_remove_one_other by assumption. apply H.
Qed.

Lemma sub_multiset_tail (x : ascii) (s a : str) :
  sub_multiset s (x :: a) -> sub_multiset (remove_one x s) a.
Proof.
  intros H c. specialize (H c). simpl in H.
  destruct (ascii_dec c x) as [->|Hne].
  - rewrite count_remove_one_same.
    destruct (ascii_dec x x); [lia|congruence].
  - rewrite count_remove_one_other by assumption.
    destruct (ascii_dec x c); [congruence|exact H].
Qed.

(** No common multiset of characters is larger than what [quick_ratio]
    counts. *)
Lemma multiset_matches_upper (a : str) :
  forall s avail : str,
    sub_multiset s a -> sub_multiset s avail ->
    length s <= multiset_matches a avail.
Proof.
  induction a as [|x a IH]; intros s avail Ha Hb.
  - assert (Hs : s = []).
    { apply (count_occ_inv_nil ascii_dec). intros c.
      specialize (Ha c). simpl in Ha. lia. }
    subst. simpl. lia.
  - simpl. destruct (existsb (Ascii.eqb x) avail) eqn:E.
    + pose proof (IH (remove_one x s) (remove_one x avail)
                     (sub_multiset_tail x s a Ha)
                     (sub_multiset_remove_one x s avail Hb)) as Hrec.
      pose proof (length_remove_one x s). lia.
    + apply IH; [|exact Hb].
      intros c. pose proof (Ha c) as Hc. pose proof (Hb c) as Hc'.
      simpl in Hc. destruct (ascii_dec x c) as [->|Hne]; [|exact Hc].
      rewrite (count_of_absent _ _ E) in Hc'. lia.
Qed.

Lemma multiset_matches_le_length (a : str) :
  forall avail : str,
    multiset_matches a avail <= Nat.min (length a) (length avail).
Proof.
  induction a as [|x a IH]; intros avail; cbn [multiset_matches length];
    [lia|].
  destruct (existsb (Ascii.eqb x) avail) eqn:E.
  - specialize (IH (remove_one x avail)).
    rewrite (length_remove_one_found _ _ E). lia.
  - specialize (IH avail). lia.
Qed.

Lemma sub_multiset_nil (a : str) : sub_multiset [] a.
Proof. intros c. simpl. lia. Qed.

(** The characters of the matching blocks are a common multiset of the two
    sequences. *)
Lemma matching_size_common (ok : ascii -> bool) (fuel : nat) :
  forall a b : str,
    exists s, length s = matching_size ok fuel a b
              /\ sub_multiset s a /\ sub_multiset s b.
Proof.
  induction fuel as [|fuel IH]; intros a b.
  - exists []. split; [reflexivity|split; apply sub_multiset_nil].
  - cbn [matching_size].
    pose proof (find_longest_match_block ok a b) as Hblk.
    destruct (find_longest_match ok a b) as [[i j] k].
    destruct Hblk as (a1 & mid & a2 & b1 & b2 & Ha & Hb & Hi & Hj & Hk).
    destruct (k =? 0);
      [exists []; split; [reflexivity|split; apply sub_multiset_nil]|].
    assert (Hfa : firstn i a = a1)
      by (rewrite Ha, <- Hi, firstn_app, Nat.sub_diag, firstn_all; simpl;
          apply app_nil_r).
    assert (Hfb : firstn j b = b1)
      by (rewrite Hb, <- Hj, firstn_app, Nat.sub_diag, firstn_all; simpl;
          apply app_nil_r).
    assert (Hsa : skipn (i + k) a = a2).
    { rewrite Ha, app_assoc, skipn_app, skipn_all2, length_app
        by (rewrite length_app; lia).
      replace (i + k - (length a1 + length mid)) with 0 by lia.
      reflexivity. }
    assert (Hsb : skipn (j + k) b = b2).
    { rewrite Hb, app_assoc, skipn_app, skipn_all2, length_app
        by (rewrite length_app; lia).
      replace (j + k - (length b1 + length mid)) with 0 by lia.
      reflexivity. }
    rewrite Hfa, Hfb, Hsa, Hsb.
    assert (Hleft : exists s1,
               length s1 = (if (0 <? i) && (0 <? j)
                            then matching_size ok fuel a1 b1 else 0)
               /\ sub_multiset s1 a1 /\ sub_multiset s1 b1).
    { destruct ((0 <? i) && (0 <? j)); [apply IH|].
      exists []. split; [reflexivity|split; apply sub_multiset_nil]. }
    assert (Hright : exists s2,
               length s2 = (if (i + k <? length a) && (j + k <? length b)
                            then matching_size ok fuel a2 b2 else 0)
               /\ sub_multiset s2 a2 /\ sub_multiset s2 b2).
    { destruct ((i + k <? length a) && (j + k <? length b)); [apply IH|].
      exists []. split; [reflexivity|split; apply sub_multiset_nil]. }
    destruct Hleft as (s1 & Hl1 & Hs1a & Hs1b).
    destruct Hright as (s2 & Hl2 & Hs2a & Hs2b).
    exists (mid ++ s1 ++ s2). split; [|split].
    + rewrite !length_app. lia.
    + intros c. rewrite Ha, !count_occ_app.
      specialize (Hs1a c). specialize (Hs2a c). lia.
    + intros c. rewrite Hb, !count_occ_app.
      specialize (Hs1b c). specialize (Hs2b c). lia.
Qed.

Lemma calculate_ratio_mono (m m' len : nat) :
  m <= m' -> (calculate_ratio m len <= calculate_ratio m' len)%Q.
Proof.
  intros H. unfold calculate_ratio.
  destruct (len =? 0); [apply Qle_refl|].
  unfold Qle. cbn [Qnum Qden]. apply Z.mul_le_mono_nonneg_r; lia.
Qed.

Lemma ratio_le_quick_ratio (a b : str) : (ratio a b <= quick_ratio a b)%Q.
Proof.
  unfold ratio, quick_ratio. apply calculate_ratio_mono.
  destruct (matching_size_common (fun c => negb (popular b c)) (length a) a b)
    as (s & <- & Hsa & Hsb).
  now apply multiset_matches_upper.
Qed.

Lemma quick_ratio_le_real_quick_ratio (a b : str) :
  (quick_ratio a b <= real_quick_ratio a b)%Q.
Proof.
  unfold quick_ratio, real_quick_ratio. apply calculate_ratio_mono.
  apply multiset_matches_le_length.
Qed.

(** The three tests of [get_close_matches] amount to the last one. *)
Lemma close_enough_iff (word : str) (cutoff : Q) (x : str) :
  close_enough word cutoff x = true <-> (cutoff <= ratio x word)%Q.
Proof.
  unfold close_enough. rewrite !andb_true_iff, !Qle_bool_iff. split.
  - tauto.
  - intros H.
    assert (Hq : (cutoff <= quick_ratio x word)%Q)
      by (eapply Qle_trans; [exact H|apply ratio_le_quick_ratio]).
    repeat split; [|exact Hq|exact H].
    eapply Qle_trans; [exact Hq|apply quick_ratio_le_real_quick_ratio].
Qed.

(** ** [get_close_matches] *)

Lemma get_close_matches_spec (word : str) (keys : list str) (cutoff : Q)
      (k : str) (others : list str) :
  get_close_matches word keys cutoff = Ok (k :: others) ->
  others = [] /\ In k keys /\ close_enough word cutoff k = true
  /\ forall k', In k' keys -> close_enough word cutoff k' = true ->
                scored_gtb (ratio k' word, k') (ratio k word, k) = false.
Proof.
  unfold get_close_matches.
  destruct (negb (Qle_bool 0 cutoff && Qle_bool cutoff 1)); [discriminate|].
  destruct (py_max _) as [[s x]|] eqn:Hmax; [|discriminate].
  intros H. inversion H; subst. clear H.
  apply py_max_spec in Hmax. destruct Hmax as [Hin Hle].
  apply in_map_iff in Hin. destruct Hin as (x0 & Heq & Hin).
  inversion Heq; subst. clear Heq.
  apply filter_In in Hin. destruct Hin as [Hin Hclose].
  repeat split; auto.
  intros k' Hk' Hc'. apply Hle. apply in_map_iff. exists k'.
  split; [reflexivity|]. apply filter_In. now split.
Qed.

Lemma filter_Permutation (A : Type) (f : A -> bool) (l l' : list A) :
  Permutation l l' -> Permutation (filter f l) (filter f l').
Proof.
  induction 1 as [|x l l' _ IH|x y l|l l' l'' _ IH1 _ IH2]; simpl.
  - constructor.
  - destruct (f x); [now constructor|assumption].
  - destruct (f x), (f y); try reflexivity. apply perm_swap.
  - now transitivity (filter f l').
Qed.

Lemma py_max_Permutation (l l' : list scored) :
  Permutation l l' ->
  option_map snd (py_max l) = option_map snd (py_max l').
Proof.
  intros Hperm.
  destruct (py_max l) as [m|] eqn:Hm, (py_max l') as [m'|] eqn:Hm'; simpl.
  - apply py_max_spec in Hm. apply py_max_spec in Hm'.
    destruct Hm as [Hin Hle], Hm' as [Hin' Hle'].
    f_equal. apply scored_le_antisym.
    + apply Hle'. now apply Permutation_in with l.
    + apply Hle. apply Permutation_in with l'; [now symmetry|assumption].
  - destruct l' as [|t l']; [|discriminate].
    apply Permutation_sym, Permutation_nil in Hperm. now subst.
  - destruct l as [|t l]; [|discriminate].
    apply Permutation_nil in Hperm. now subst.
  - reflexivity.
Qed.

Lemma get_close_matches_Permutation (word : str) (keys keys' : list str)
      (cutoff : Q) :
  Permutation keys keys' ->
  get_close_matches word keys cutoff = get_close_matches word keys' cutoff.
Proof.
  intros Hperm. unfold get_close_matches.
  destruct (negb (Qle_bool 0 cutoff && Qle_bool cutoff 1)); [reflexivity|].
  pose proof (py_max_Permutation _ _
                (Permutation_map (fun x => (ratio x word, x))
                   (filter_Permutation _ (close_enough word cutoff) _ _ Hperm)))
    as H.
  destruct (py_max _) as [[s x]|], (py_max _) as [[s' x']|];
    simpl in H; congruence.
Qed.

Section OrderOfRows.
Variable price : Type.

Lemma index_contains_Permutation (df df' : catalog price) (label : str) :
  Permutation df df' -> index_contains df label = index_contains df' label.
Proof.
  intros Hperm.
  assert (Hidx : Permutation (index df) (index df'))
    by now apply Permutation_map.
  destruct (index_contains df label) eqn:E, (index_contains df' label) eqn:E';
    try reflexivity.
  - apply index_contains_In in E.
    apply (Permutation_in _ Hidx), index_contains_In in E. congruence.
  - apply index_contains_In in E'.
    apply (Permutation_in _ (Permutation_sym Hidx)), index_contains_In in E'.
    congruence.
Qed.

Lemma loc_price_Permutation (df df' : catalog price) (label : str) :
  Permutation df df' -> loc_price df label = loc_price df' label.
Proof.
  intros Hperm. unfold loc_price.
  apply (filter_Permutation _ (fun row => str_eqb label (fst row))) in Hperm.
  destruct (filter _ df) as [|r [|r2 rows]].
  - apply Permutation_nil in Hperm. now rewrite Hperm.
  - apply Permutation_length_1_inv in Hperm. now rewrite Hperm.
  - apply Permutation_length in Hperm.
    destruct (filter _ df') as [|r' [|r2' rows']]; simpl in Hperm;
      try discriminate. reflexivity.
Qed.

Lemma fuzzy_lookup_Permutation (df df' : catalog price) (phrase : str)
      (cutoff : Q) :
  Permutation df df' ->
  fuzzy_lookup phrase (Some df) cutoff = fuzzy_lookup phrase (Some df') cutoff.
Proof.
  intros Hperm. unfold fuzzy_lookup.
  rewrite (index_contains_Permutation _ _ _ Hperm).
  rewrite (loc_price_Permutation _ _ _ Hperm).
  rewrite (get_close_matches_Permutation _ _ _ cutoff
             (Permutation_map fst Hperm : Permutation (index df) (index df'))).
  destruct (index_contains df' _); [reflexivity|].
  destruct (get_close_matches _ _ _) as [[|m ms]|e]; try reflexivity.
  now rewrite (loc_price_Permutation _ _ _ Hperm).
Qed.

(** C8, amended.  [fuzzy_lookup] is a function of the phrase and of the set
    of catalog rows: the order of the rows does not matter.  When it
    answers by approximation, the key it returns is at or above the cutoff,
    no catalog key is more similar to the phrase, and among the keys at or
    above the cutoff that tie with it the returned key is the
    lexicographically largest. *)
Theorem fuzzy_lookup_deterministic_largest_tie
        (df : catalog price) (phrase : str) (cutoff : Q) :
  (forall df', Permutation df df' ->
               fuzzy_lookup phrase (Some df) cutoff
               = fuzzy_lookup phrase (Some df') cutoff)
  /\ forall k p,
       index_contains df (lower (strip phrase)) = false ->
       fuzzy_lookup phrase (Some df) cutoff = Ok (Some (k, p)) ->
       In k (index df)
       /\ (cutoff <= ratio k (lower (strip phrase)))%Q
       /\ forall k',
            In k' (index df) ->
            (cutoff <= ratio k' (lower (strip phrase)))%Q ->
            (ratio k' (lower (strip phrase))
             <= ratio k (lower (strip phrase)))%Q
            /\ ((ratio k' (lower (strip phrase))
                 == ratio k (lower (strip phrase)))%Q ->
                str_ltb k k' = false).
Proof.
  split; [intros df'; apply fuzzy_lookup_Permutation|].
  intros k p Hidx. unfold fuzzy_lookup. rewrite Hidx.
  destruct (get_close_matches _ _ _) as [[|m ms]|e] eqn:Hg; try discriminate.
  destruct (loc_price df m) as [q|e]; [|discriminate].
  intros H. inversion H; subst. clear H.
  apply get_close_matches_spec in Hg.
  destruct Hg as (_ & Hin & Hclose & Hbest).
  split; [exact Hin|]. split; [now apply close_enough_iff|].
  intros k' Hin' Hcut'. apply close_enough_iff in Hcut'.
  specialize (Hbest k' Hin' Hcut'). apply scored_le_iff in Hbest.
  cbn [fst snd] in Hbest. split.
  - destruct Hbest as [Hlt|[Heq _]];
      [now apply Qlt_le_weak|rewrite Heq; apply Qle_refl].
  - intros Heq. destruct Hbest as [Hlt|[_ Hs]]; [|exact Hs].
    exfalso. exact (Qlt_not_eq _ _ Hlt Heq).
Qed.
End OrderOfRows.

(** C8, as stated, fails: "bat" and "hat" are equally similar to "cat",
    both above the default cutoff, and the larger one is returned. *)
Lemma fuzzy_lookup_tie_picks_largest :
  ~ (forall (df : catalog Q) (phrase k k' : str) (p : Q),
        fuzzy_lookup phrase (Some df) default_cutoff = Ok (Some (k, p)) ->
        In k' (index df) ->
        (default_cutoff <= ratio k' (lower (strip phrase)))%Q ->
        (ratio k' (lower (strip phrase))
         == ratio k (lower (strip phrase)))%Q ->
        str_ltb k' k = false).
Proof.
  intros H.
  specialize (H [(py "bat", 10%Q); (py "hat", 20%Q)]
                (py "cat") (py "hat") (py "bat") 20%Q).
  assert (Hsmaller : str_ltb (py "bat") (py "hat") = false).
  { apply H.
    - vm_compute. reflexivity.
    - left. reflexivity.
    - vm_compute. discriminate.
    - vm_compute. reflexivity. }
  vm_compute in Hsmaller. discriminate.
Qed.

Lemma fuzzy_lookup_deterministic_largest_tie_witness :
  let df : catalog Q := [(py "bat", 10%Q); (py "hat", 20%Q)] in
  fuzzy_lookup (py "cat") (Some df) default_cutoff
  = fuzzy_lookup (py "cat") (Some (rev df)) default_cutoff
  /\ In (py "hat") (index df)
  /\ (default_cutoff <= ratio (py "hat") (lower (strip (py "cat"))))%Q
  /\ str_ltb (py "hat") (py "bat") = false.
Proof.
  pose proof (fuzzy_lookup_deterministic_largest_tie Q
                [(py "bat", 10%Q); (py "hat", 20%Q)] (py "cat")
                default_cutoff) as [Hperm Hbest].
  split; [apply Hperm; apply Permutation_rev|].
  destruct (Hbest (py "hat") 20%Q) as (Hin & Hclose & Hties).
  - vm_compute. reflexivity.
  - vm_compute. reflexivity.
  - split; [exact Hin|]. split; [exact Hclose|].
    apply (Hties (py "bat")).
    + left. reflexivity.
    + vm_compute. discriminate.
    + vm_compute. reflexivity.
Defined.

(** ** Quantities and prices that reach the ledger *)

Lemma int_of_digits_nonneg (s : str) : (0 <= int_of_digits s)%Z.
Proof.
  unfold int_of_digits.
  assert (H : forall acc, (0 <= acc)%Z ->
            (0 <= fold_left (fun a c => 10 * a + digit_value c) s acc)%Z).
  { induction s as [|c s IH]; cbn [fold_left]; intros acc Hacc; [assumption|].
    apply IH. unfold digit_value. lia. }
  apply H. lia.
Qed.

Lemma words_to_num_positive (word : str) (n : Z) :
  dict_get words_to_num word = Some n -> (1 <= n)%Z.
Proof.
  unfold words_to_num. simpl.
  repeat (destruct (str_eqb word _); [intros H; inversion H; lia|]).
  discriminate.
Qed.

Lemma parse_quantity_nonneg (text : str) :
  (0 <= fst (parse_quantity_and_item text))%Z.
Proof.
  unfold parse_quantity_and_item.
  destruct (match_digits _) as [[g1 g2]|]; cbn [fst].
  - apply int_of_digits_nonneg.
  - destruct (match_word _) as [[g1 g2]|]; cbn [fst]; [|lia].
    destruct (dict_get words_to_num g1) as [n|] eqn:Hn; cbn [fst]; [|lia].
    apply words_to_num_positive in Hn. lia.
Qed.

Lemma loc_price_In (price : Type) (df : catalog price) (label : str)
      (p : price) :
  loc_price df label = Ok p -> In (label, p) df.
Proof.
  unfold loc_price.
  destruct (filter _ df) as [|[k q] [|r rows]] eqn:Hf; try discriminate.
  intros H. inversion H; subst. clear H.
  assert (Hin : In (k, p) (filter (fun row => str_eqb label (fst row)) df))
    by (rewrite Hf; now left).
  apply filter_In in Hin. destruct Hin as [Hin Heq].
  apply str_eqb_eq in Heq. simpl in Heq. now subst.
Qed.

Lemma fuzzy_lookup_In (price : Type) (df : catalog price)
      (text : str) (cutoff : Q) (k : str) (p : price) :
  fuzzy_lookup text (Some df) cutoff = Ok (Some (k, p)) -> In (k, p) df.
Proof.
  unfold fuzzy_lookup.
  destruct (index_contains df _).
  - destruct (loc_price df _) as [q|e] eqn:Hloc; [|discriminate].
    intros H. inversion H; subst. now apply loc_price_In.
  - destruct (get_close_matches _ _ _) as [[|m ms]|e]; try discriminate.
    destruct (loc_price df m) as [q|e] eqn:Hloc; [|discriminate].
    intros H. inversion H; subst. now apply loc_price_In.
Qed.

(** ** Running the monad *)

Section PipelineFacts.
Context {price : Type} {ops : PriceOps price}.
Variable env : Env price.

Ltac run_monad :=
  unfold bind, gets, lift, ret, modify, emit, talk, add_log, datetime_now,
    raise, try_except;
  cbn [fst snd state clock trace price_df items logs is_listening
       speech_queue customer_name set_items set_logs set_speech_queue
       set_customer_name set_price_df set_is_listening clear_bill].

Lemma add_log_run (text : str) (w : World price) :
  add_log env text w
  = (Ok tt,
     {| state := set_logs (push_log (log_entry (now env (clock w)) text)
                                    (logs (state w)))
                          (state w);
        clock := S (clock w);
        trace := trace w |}).
Proof. reflexivity. Qed.

(** One turn of the loop: pop, process, and go on unless that raised. *)
Lemma drain_cons (raw : str) (pending : list str) (w : World price) :
  snd (drain env (raw :: pending) w)
  = let popped := {| state := set_speech_queue pending (state w);
                     clock := clock w; trace := trace w |} in
    match process_utterance env raw popped with
    | (Ok _, w') => snd (drain env pending w')
    | (Raise _, w') => w'
    end.
Proof.
  cbn [drain]. unfold bind at 1 2, modify. cbv zeta.
  now destruct (process_utterance env raw _) as [[u|e] w'].
Qed.

(** C1 fails on the code: the name is what remains of the whole utterance
    once every occurrence of "name " has been removed, so on
    "name my name is bob" the customer becomes "my is bob", while the
    trimmed remainder after the prefix is "my name is bob". *)
Theorem name_directive_removes_every_occurrence (w : World price) :
  let raw := py "name my name is bob" in
  startswith (strip (lower raw)) (py "name ") = true
  /\ customer_name (state (snd (process_utterance env raw w)))
     = py "my is bob"
  /\ strip (skipn (length (py "name ")) (strip (lower raw)))
     = py "my name is bob".
Proof.
  repeat split; vm_compute; reflexivity.
Qed.

(** C10. Invoking bill export while the ledger is empty appends exactly
    one log entry, "Cannot print empty bill.", generates no document (no
    external effect at all) and leaves the ledger, the customer name and
    the catalog unchanged. *)
Theorem print_bill_empty_ledger (w : World price) :
  items (state w) = [] ->
  let w' := snd (print_bill env w) in
  fst (print_bill env w) = Ok no_update
  /\ logs (state w')
     = push_log (log_entry (now env (clock w)) (py "Cannot print empty bill."))
                (logs (state w))
  /\ trace w' = trace w
  /\ items (state w') = items (state w)
  /\ customer_name (state w') = customer_name (state w)
  /\ price_df (state w') = price_df (state w).
Proof.
  intros Hempty. unfold print_bill, bind, gets. simpl. rewrite Hempty.
  simpl. repeat split; auto.
Qed.
(** The three ways [print_bill] can go on a non-empty ledger: the renderer
    raises, the opener raises, or neither does. *)
Lemma print_bill_cases (w : World price) :
  items (state w) <> [] ->
  let w' := snd (print_bill env w) in
  let filename := export_filename env w in
  let generated :=
    push_log (log_entry (now env (S (S (clock w))))
                        (py "PDF Generated: " ++ filename))
             (logs (state w)) in
  fst (print_bill env w) = Ok py_None
  /\ match pdf_error env filename (export_bill env w),
           open_error env filename with
     | Some e, _ =>
         items (state w') = items (state w)
         /\ customer_name (state w') = customer_name (state w)
         /\ price_df (state w') = price_df (state w)
         /\ logs (state w')
            = push_log (log_entry (now env (S (S (clock w))))
                                  (py "Print error: " ++ str_of_exn e))
                       (logs (state w))
         /\ trace w' = trace w
     | None, Some e =>
         items (state w') = items (state w)
         /\ customer_name (state w') = customer_name (state w)
         /\ price_df (state w') = price_df (state w)
         /\ logs (state w')
            = push_log (log_entry (now env (S (S (S (clock w)))))
                                  (py "Print error: " ++ str_of_exn e))
                       generated
         /\ trace w'
            = trace w ++ [PdfWritten filename (export_bill env w);
                          Talk (py "Bill generated successfully")]
     | None, None =>
         items (state w') = []
         /\ logs (state w') = []
         /\ customer_name (state w') = py "-"
         /\ price_df (state w') = price_df (state w)
     end.
Proof.
  intros Hitems. unfold export_filename, export_bill.
  unfold print_bill, bind, gets, try_except, generate_bill_pdf, open_file.
  simpl. destruct (items (state w)) as [|it its] eqn:Hits; [congruence|].
  simpl.
  destruct (pdf_error env _ _) as [e|]; simpl.
  - repeat split; auto.
  - destruct (open_error env _) as [e|]; simpl; repeat split; auto.
    now rewrite <- app_assoc.
Qed.

(** What one utterance does to the ledger: the catalog is left alone and
    at most one row is appended, whose quantity is not negative, whose
    total is quantity times rate, and whose name and rate are a row of the
    catalog. *)
Lemma process_utterance_appends (raw : str) (w : World price) :
  let w' := snd (process_utterance env raw w) in
  price_df (state w') = price_df (state w)
  /\ exists appended,
       items (state w') = items (state w) ++ appended
       /\ length appended <= 1
       /\ forall it, In it appended ->
            (0 <= qty it)%Z
            /\ total it = pmul (qty it) (rate it)
            /\ exists df, price_df (state w) = Some df
                          /\ In (item it, rate it) df.
Proof.
  assert (Hnone : forall its : list (LineItem price),
             exists appended,
               its = its ++ appended /\ length appended <= 1
               /\ forall it, In it appended ->
                    (0 <= qty it)%Z
                    /\ total it = pmul (qty it) (rate it)
                    /\ exists df, price_df (state w) = Some df
                                  /\ In (item it, rate it) df).
  { intros its. exists []. rewrite app_nil_r.
    split; [reflexivity|]. split; [simpl; lia|]. intros it []. }
  unfold process_utterance.
  destruct (startswith _ _).
  - run_monad. split; [reflexivity|]. apply Hnone.
  - pose proof (parse_quantity_nonneg (strip (lower raw))) as Hq.
    destruct (parse_quantity_and_item _) as [q name]. cbn [fst] in Hq.
    run_monad.
    destruct (price_df (state w)) as [df|] eqn:Hdf; run_monad.
    + destruct (fuzzy_lookup name (Some df) default_cutoff)
        as [[[k p]|]|e] eqn:Hf; run_monad.
      * destruct (truthy k); run_monad.
        -- split; [assumption|].
           exists [{| item := k; qty := q; rate := p; total := pmul q p |}].
           split; [reflexivity|]. split; [simpl; lia|].
           intros it [<-|[]]. simpl. split; [assumption|].
           split; [reflexivity|]. exists df. split; [reflexivity|].
           now apply fuzzy_lookup_In in Hf.
        -- split; [assumption|]. apply Hnone.
      * split; [assumption|]. apply Hnone.
      * split; [assumption|]. apply Hnone.
    + split; [assumption|]. apply Hnone.
Qed.

(** The same over the whole queue: the rows appended while draining it. *)
Lemma drain_appends (pending : list str) :
  forall w : World price,
    let w' := snd (drain env pending w) in
    price_df (state w') = price_df (state w)
    /\ exists appended,
         items (state w') = items (state w) ++ appended
         /\ length appended <= length pending
         /\ forall it, In it appended ->
              (0 <= qty it)%Z
              /\ total it = pmul (qty it) (rate it)
              /\ exists df, price_df (state w) = Some df
                            /\ In (item it, rate it) df.
Proof.
  induction pending as [|raw pending IH]; intros w.
  - split; [reflexivity|]. exists []. rewrite app_nil_r.
    split; [reflexivity|]. split; [simpl; lia|]. intros it [].
  - cbv zeta. rewrite drain_cons. cbv zeta.
    set (w1 := {| state := set_speech_queue pending (state w);
                  clock := clock w; trace := trace w |}).
    pose proof (process_utterance_appends raw w1) as Hstep.
    cbv zeta in Hstep. change (price_df (state w1)) with (price_df (state w))
      in Hstep.
    change (items (state w1)) with (items (state w)) in Hstep.
    destruct Hstep as (Hdf & one & Hone & Hlen & Hok).
    destruct (process_utterance env raw w1) as [[u|e] w2]; cbn [snd] in *.
    + destruct (IH w2) as (Hdf' & more & Hmore & Hlen' & Hok').
      split; [congruence|].
      exists (one ++ more). split; [|split].
      * now rewrite Hmore, Hone, app_assoc.
      * rewrite length_app. simpl. lia.
      * intros it Hin. apply in_app_or in Hin. destruct Hin as [Hin|Hin].
        -- now apply Hok.
        -- destruct (Hok' it Hin) as (Hq & Ht & df & Hsome & Hrow).
           split; [exact Hq|]. split; [exact Ht|].
           exists df. split; [congruence|exact Hrow].
    + split; [exact Hdf|]. exists one. split; [exact Hone|].
      split; [simpl; lia|exact Hok].
Qed.

(** C4, amended.  Every row that the consumer loop appends to the ledger
    has a quantity that is not negative, a line total equal to the
    quantity times the unit rate, and a name and unit rate that are a row
    of the catalog; there is at most one such row per utterance, and the
    rows already in the ledger stay as they are. *)
Theorem appended_line_item_invariant (w : World price) :
  exists appended,
    items (state (snd (poll_updates env w))) = items (state w) ++ appended
    /\ length appended <= length (speech_queue (state w))
    /\ forall it, In it appended ->
         (0 <= qty it)%Z
         /\ total it = pmul (qty it) (rate it)
         /\ exists df, price_df (state w) = Some df
                       /\ In (item it, rate it) df.
Proof.
  unfold poll_updates. unfold bind at 1, gets at 1. cbn [fst snd].
  pose proof (drain_appends (speech_queue (state w)) w) as Hdrain.
  cbv zeta in Hdrain. destruct Hdrain as (_ & appended & Hitems & Hrest).
  exists appended. split; [|exact Hrest].
  rewrite <- Hitems. unfold bind, gets, ret.
  now destruct (drain env (speech_queue (state w)) w) as [[u|e] w1].
Qed.

(** ** The log buffer *)

Lemma push_log_lastn (entry : str) (buffer : list str) :
  length buffer <= log_capacity ->
  push_log entry buffer = lastn log_capacity (buffer ++ [entry]).
Proof.
  unfold push_log, lastn, log_capacity. intros Hlen.
  rewrite length_app. simpl length.
  destruct (Nat.ltb_spec 20 (length buffer + 1)) as [Hfull|Hroom].
  - replace (length buffer + 1 - 20) with 1 by lia.
    now destruct (buffer ++ [entry]).
  - replace (length buffer + 1 - 20) with 0 by lia. reflexivity.
Qed.

Lemma lastn_length (A : Type) (n : nat) (l : list A) :
  length (lastn n l) <= n.
Proof. unfold lastn. rewrite length_skipn. lia. Qed.

Lemma push_log_bounded (entry : str) (buffer : list str) :
  length buffer <= log_capacity ->
  length (push_log entry buffer) <= log_capacity.
Proof.
  intros Hlen. rewrite (push_log_lastn _ _ Hlen). apply lastn_length.
Qed.

Lemma lastn_app_lastn (A : Type) (n : nat) (l l' : list A) :
  lastn n (lastn n l ++ l') = lastn n (l ++ l').
Proof.
  unfold lastn.
  destruct (Nat.le_gt_cases (length l) n) as [Hshort|Hlong].
  - replace (length l - n) with 0 by lia. reflexivity.
  - rewrite !length_app, length_skipn, !skipn_app, length_skipn, skipn_skipn.
    f_equal; f_equal; lia.
Qed.

Lemma add_logs_run (texts : list str) (w : World price) :
  log_bounded (state w) ->
  logs (state (snd (add_logs env texts w)))
  = lastn log_capacity (logs (state w) ++ entries_from env (clock w) texts).
Proof.
  revert w. induction texts as [|text texts IH]; intros w Hb.
  - simpl. rewrite app_nil_r. unfold lastn.
    unfold log_bounded in Hb.
    replace (length (logs (state w)) - log_capacity) with 0 by lia.
    reflexivity.
  - cbn [add_logs entries_from]. unfold bind. rewrite add_log_run.
    rewrite IH.
    + cbn [state logs set_logs clock].
      rewrite (push_log_lastn _ _ Hb), lastn_app_lastn, <- app_assoc.
      reflexivity.
    + unfold log_bounded. cbn [state logs set_logs].
      now apply push_log_bounded.
Qed.
(** ** The invariant of the runs *)

Lemma consistent_set_logs (st : AppState price) (entry : str) :
  consistent st -> consistent (set_logs (push_log entry (logs st)) st).
Proof.
  intros [Hl Hb]. split; [exact Hl|].
  unfold log_bounded. cbn [logs set_logs]. now apply push_log_bounded.
Qed.

Lemma process_utterance_logs (raw : str) (w : World price) :
  let w' := snd (process_utterance env raw w) in
  logs (state w') = logs (state w)
  \/ exists entry, logs (state w') = push_log entry (logs (state w)).
Proof.
  unfold process_utterance.
  destruct (startswith _ _).
  - run_monad. right. eexists. reflexivity.
  - destruct (parse_quantity_and_item _) as [q name]. run_monad.
    destruct (price_df (state w)) as [df|]; run_monad.
    + destruct (fuzzy_lookup name (Some df) default_cutoff)
        as [[[k p]|]|e]; run_monad.
      * destruct (truthy k); run_monad; right; eexists; reflexivity.
      * right. eexists. reflexivity.
      * now left.
    + right. eexists. reflexivity.
Qed.

Lemma process_utterance_consistent (raw : str) (w : World price) :
  consistent (state w) ->
  consistent (state (snd (process_utterance env raw w))).
Proof.
  intros [Hl Hb]. split.
  - destruct (process_utterance_appends raw w)
      as (_ & appended & Heq & _ & Hok).
    unfold ledger_ok. rewrite Heq. apply Forall_app. split; [exact Hl|].
    apply Forall_forall. intros it Hin. now apply Hok.
  - unfold log_bounded.
    destruct (process_utterance_logs raw w) as [Heq|[entry Heq]];
      rewrite Heq; [exact Hb|now apply push_log_bounded].
Qed.

Lemma drain_consistent (pending : list str) (w : World price) :
  consistent (state w) -> consistent (state (snd (drain env pending w))).
Proof.
  revert w. induction pending as [|raw pending IH]; intros w Hc.
  - exact Hc.
  - rewrite drain_cons. cbv zeta.
    set (w1 := {| state := set_speech_queue pending (state w);
                  clock := clock w; trace := trace w |}).
    assert (Hc1 : consistent (state w1)) by exact Hc.
    pose proof (process_utterance_consistent raw w1 Hc1) as Hc2.
    destruct (process_utterance env raw w1) as [[u|e] w2]; cbn [snd] in *.
    + now apply IH.
    + exact Hc2.
Qed.

Lemma poll_updates_state (w : World price) :
  snd (poll_updates env w) = snd (drain env (speech_queue (state w)) w).
Proof.
  unfold poll_updates. run_monad.
  now destruct (drain env (speech_queue (state w)) w) as [[u|e] w1].
Qed.

Lemma poll_updates_view (w w' : World price) (v : View) :
  poll_updates env w = (Ok v, w') ->
  view_subtotal v = subtotal (items (state w'))
  /\ table_body v = items (state w')
  /\ log_elements v = rev (logs (state w')).
Proof.
  unfold poll_updates. run_monad.
  destruct (drain env (speech_queue (state w)) w) as [[u|e] w1];
    intros H; inversion H; subst; auto.
Qed.

Lemma print_bill_consistent (w : World price) :
  consistent (state w) -> consistent (state (snd (print_bill env w))).
Proof.
  intros Hc. destruct (items (state w)) as [|it its] eqn:Hits.
  - unfold print_bill. run_monad. rewrite Hits. run_monad.
    now apply consistent_set_logs.
  - assert (Hne : items (state w) <> []) by (rewrite Hits; discriminate).
    destruct (print_bill_cases w Hne) as [_ Hcases].
    destruct Hc as [Hl Hb]. unfold consistent, ledger_ok, log_bounded.
    destruct (pdf_error env _ _) as [e|].
    + destruct Hcases as (-> & _ & _ & -> & _).
      split; [exact Hl|now apply push_log_bounded].
    + destruct (open_error env _) as [e|].
      * destruct Hcases as (-> & _ & _ & -> & _).
        split; [exact Hl|]. now repeat apply push_log_bounded.
      * destruct Hcases as (-> & -> & _).
        split; [constructor|simpl; unfold log_capacity; lia].
Qed.

Lemma step_consistent (w w' : World price) :
  step env w w' -> consistent (state w) -> consistent (state w').
Proof.
  intros Hstep Hc. destruct Hstep.
  - destruct rows as [rows|]; [|exact Hc].
    unfold load_excel. run_monad. now apply consistent_set_logs.
  - unfold start_listening. run_monad.
    destruct (is_listening (state w)); exact Hc.
  - unfold stop_listening. run_monad.
    destruct (is_listening (state w)); exact Hc.
  - unfold listener_started. run_monad. now apply consistent_set_logs.
  - exact Hc.
  - unfold listener_failed. run_monad. now apply consistent_set_logs.
  - rewrite poll_updates_state. now apply drain_consistent.
  - now apply print_bill_consistent.
Qed.

Lemma reachable_consistent (w : World price) :
  reachable env w -> consistent (state w).
Proof.
  induction 1 as [|w w' _ IH Hstep].
  - split; [apply Forall_nil|].
    unfold log_bounded, log_capacity. simpl. lia.
  - exact (step_consistent _ _ Hstep IH).
Qed.

Lemma ledger_ok_subtotal (st : AppState price) :
  ledger_ok st -> subtotal (items st) = sum_qty_rate (items st).
Proof.
  unfold ledger_ok, subtotal, sum_qty_rate. intros Hok. f_equal.
  induction Hok as [|it its Hit _ IH]; simpl; [reflexivity|].
  now rewrite Hit, IH.
Qed.
(** C5. In every run of the application the subtotal of the ledger is the
    sum of quantity times rate over its rows, in the order [sum] adds them;
    so is the subtotal [poll_updates] reports; and once the ledger has been
    cleared (which [print_bill] does when the export succeeds) the subtotal
    is the initial 0. *)
Theorem ledger_subtotal_is_sum (w : World price) :
  reachable env w ->
  subtotal (items (state w)) = sum_qty_rate (items (state w))
  /\ (forall v w', poll_updates env w = (Ok v, w') ->
                   view_subtotal v = sum_qty_rate (items (state w')))
  /\ subtotal (items (clear_bill (state w))) = pzero
  /\ (export_failure env w = None ->
      subtotal (items (state (snd (print_bill env w)))) = pzero).
Proof.
  intros Hreach. split; [|split; [|split]].
  - apply ledger_ok_subtotal. now apply reachable_consistent.
  - intros v w' Hpoll.
    destruct (poll_updates_view _ _ _ Hpoll) as (-> & _).
    apply ledger_ok_subtotal.
    assert (Hw' : reachable env w').
    { apply reach_step with w; [assumption|].
      replace w' with (snd (poll_updates env w)) by now rewrite Hpoll.
      apply step_poll. }
    now apply reachable_consistent.
  - reflexivity.
  - intros Hok. destruct (items (state w)) as [|it its] eqn:Hits.
    + unfold print_bill. run_monad. rewrite Hits. run_monad.
      now rewrite Hits.
    + assert (Hne : items (state w) <> []) by (rewrite Hits; discriminate).
      destruct (print_bill_cases w Hne) as [_ Hcases].
      unfold export_failure in Hok.
      destruct (pdf_error env _ _) as [e|]; [discriminate|].
      destruct (open_error env _) as [e|]; [discriminate|].
      destruct Hcases as (-> & _). reflexivity.
Qed.

(** C6. In every run the log buffer holds at most 20 entries.  A sequence
    of [add_log] calls on a buffer within capacity leaves exactly the last
    20 of the old entries followed by the new ones, in arrival order; in
    particular an append to a full buffer evicts its oldest entry. *)
Theorem logger_bounded_fifo :
  (forall w : World price,
      reachable env w -> length (logs (state w)) <= 20)
  /\ (forall (w : World price) (texts : list str),
         length (logs (state w)) <= 20 ->
         let w' := snd (add_logs env texts w) in
         length (logs (state w')) <= 20
         /\ logs (state w')
            = lastn 20 (logs (state w) ++ entries_from env (clock w) texts))
  /\ (forall (w : World price) (text : str),
         length (logs (state w)) = 20 ->
         logs (state (snd (add_log env text w)))
         = tl (logs (state w)) ++ [log_entry (now env (clock w)) text]).
Proof.
  split; [|split].
  - intros w Hreach. exact (proj2 (reachable_consistent w Hreach)).
  - intros w texts Hb. cbv zeta.
    rewrite (add_logs_run texts w Hb). split; [apply lastn_length|reflexivity].
  - intros w text Hfull. rewrite add_log_run. cbn [snd state logs set_logs].
    unfold push_log, log_capacity. rewrite length_app, Hfull. simpl.
    destruct (logs (state w)); [discriminate|reflexivity].
Qed.

End PipelineFacts.






(** ** The properties on the sample runs *)

Lemma scenario_polled_reachable : reachable working_env scenario_polled.
Proof.
  unfold scenario_polled, scenario_heard, scenario_loaded.
  eapply reach_step; [|apply step_poll].
  eapply reach_step; [|apply step_heard].
  eapply reach_step; [|apply step_heard].
  eapply reach_step; [|apply step_heard].
  eapply reach_step; [|apply step_load].
  apply reach_init.
Qed.

(** C4, as stated, fails: "0 coffee" appends a row of quantity 0. *)
Lemma zero_quantity_row_is_appended :
  ~ (forall (env : Env Q) (w : World Q) (appended : list (LineItem Q)),
        items (state (snd (poll_updates env w)))
        = items (state w) ++ appended ->
        forall it, In it appended ->
                   (1 <= qty it)%Z /\ total it = pmul (qty it) (rate it)).
Proof.
  intros H.
  destruct (H working_env
              (snd (listener_heard (py "0 coffee") scenario_loaded))
              [{| item := py "coffee"; qty := 0; rate := 50%Q;
                  total := 0%Q |}])
    with (it := {| item := py "coffee"; qty := 0%Z; rate := 50%Q;
                   total := 0%Q |}) as [Hqty _].
  - vm_compute. reflexivity.
  - left. reflexivity.
  - simpl in Hqty. lia.
Qed.

Lemma ledger_subtotal_is_sum_witness :
  reachable working_env scenario_polled
  /\ subtotal (items (state scenario_polled))
     = sum_qty_rate (items (state scenario_polled))
  /\ subtotal (items (state scenario_polled)) = 130%Q
  /\ subtotal
       (items (state (snd (print_bill working_env scenario_polled))))
     = 0%Q.
Proof.
  pose proof (ledger_subtotal_is_sum working_env scenario_polled
                scenario_polled_reachable) as (Hsum & _ & _ & Hcleared).
  split; [exact scenario_polled_reachable|].
  split; [exact Hsum|].
  split; [vm_compute; reflexivity|].
  apply Hcleared. vm_compute. reflexivity.
Defined.

Lemma logger_bounded_fifo_witness :
  length (logs (state full_log_world)) = 20
  /\ logs (state (snd (add_log working_env (py "one more") full_log_world)))
     = tl (logs (state full_log_world))
       ++ [py "[09:30:00] one more"]
  /\ length (logs (state scenario_polled)) <= 20.
Proof.
  destruct (logger_bounded_fifo working_env) as (Hreach & _ & Hevict).
  split; [vm_compute; reflexivity|].
  split.
  - rewrite (Hevict full_log_world (py "one more"));
      vm_compute; reflexivity.
  - apply Hreach. exact scenario_polled_reachable.
Defined.



Lemma print_bill_empty_ledger_witness :
  items (state scenario_loaded) = []
  /\ fst (print_bill working_env scenario_loaded) = Ok no_update
  /\ trace (snd (print_bill working_env scenario_loaded))
     = trace scenario_loaded
  /\ logs (state (snd (print_bill working_env scenario_loaded)))
     = [py "[09:30:00] Loaded prices.xlsx successfully.";
        py "[09:30:01] Cannot print empty bill."].
Proof.
  assert (Hempty : items (state scenario_loaded) = [])
    by (vm_compute; reflexivity).
  destruct (print_bill_empty_ledger working_env scenario_loaded Hempty)
    as (Hret & Hlogs & Htrace & _).
  split; [exact Hempty|]. split; [exact Hret|]. split; [exact Htrace|].
  rewrite Hlogs. vm_compute. reflexivity.
Defined.

(* ================================================================== *)
(** * Further properties of the code *)

(** ** Normalised text *)

Lemma is_space_lower_char (c : ascii) : is_space (lower_char c) = is_space c.
Proof. destruct c as [[] [] [] [] [] [] [] []]; vm_compute; reflexivity. Qed.

Lemma lower_char_idem (c : ascii) : lower_char (lower_char c) = lower_char c.
Proof. destruct c as [[] [] [] [] [] [] [] []]; vm_compute; reflexivity. Qed.

Lemma lower_idem (s : str) : lower (lower s) = lower s.
Proof.
  unfold lower. rewrite map_map. apply map_ext. apply lower_char_idem.
Qed.

Lemma lstrip_lower (s : str) : lstrip (lower s) = lower (lstrip s).
Proof.
  induction s as [|c s IH]; simpl; [reflexivity|].
  rewrite is_space_lower_char. destruct (is_space c); [exact IH|reflexivity].
Qed.

Lemma lower_rev (s : str) : lower (rev s) = rev (lower s).
Proof. apply map_rev. Qed.

Lemma rstrip_lower (s : str) : rstrip (lower s) = lower (rstrip s).
Proof.
  unfold rstrip. now rewrite <- lower_rev, lstrip_lower, lower_rev.
Qed.

Lemma strip_lower (s : str) : strip (lower s) = lower (strip s).
Proof. unfold strip. now rewrite lstrip_lower, rstrip_lower. Qed.

Lemma lstrip_fixed (s : str) :
  match s with c :: _ => is_space c = false | [] => True end ->
  lstrip s = s.
Proof. destruct s as [|c s]; simpl; [reflexivity|]. now intros ->. Qed.

Lemma lstrip_head (s : str) :
  match lstrip s with c :: _ => is_space c = false | [] => True end.
Proof.
  induction s as [|c s IH]; simpl; [exact I|].
  destruct (is_space c) eqn:E; [exact IH|exact E].
Qed.

Lemma lstrip_idem (s : str) : lstrip (lstrip s) = lstrip s.
Proof. apply lstrip_fixed, lstrip_head. Qed.

Lemma lstrip_split (s : str) :
  exists blanks, s = blanks ++ lstrip s /\ forallb is_space blanks = true.
Proof.
  induction s as [|c s (blanks & Hs & Hb)]; simpl.
  - now exists [].
  - destruct (is_space c) eqn:E.
    + exists (c :: blanks). simpl. rewrite E, Hb. split; [|reflexivity].
      now rewrite <- Hs.
    + now exists [].
Qed.

Lemma rstrip_split (s : str) :
  exists blanks, s = rstrip s ++ blanks /\ forallb is_space blanks = true.
Proof.
  destruct (lstrip_split (rev s)) as (blanks & Hs & Hb).
  exists (rev blanks). split.
  - unfold rstrip. rewrite <- rev_app_distr, <- Hs. now rewrite rev_involutive.
  - rewrite forallb_forall in *. intros c Hc. apply Hb. now apply in_rev.
Qed.

Lemma rstrip_idem (s : str) : rstrip (rstrip s) = rstrip s.
Proof. unfold rstrip. now rewrite rev_involutive, lstrip_idem. Qed.

Lemma rstrip_head (s : str) :
  match s with c :: _ => is_space c = false | [] => True end ->
  match rstrip s with c :: _ => is_space c = false | [] => True end.
Proof.
  destruct (rstrip_split s) as (blanks & Hs & _).
  destruct (rstrip s) as [|c r]; [trivial|].
  rewrite Hs. simpl. trivial.
Qed.

Lemma strip_idem (s : str) : strip (strip s) = strip s.
Proof.
  unfold strip.
  rewrite (lstrip_fixed (rstrip (lstrip s)))
    by apply rstrip_head, lstrip_head.
  apply rstrip_idem.
Qed.

Lemma normalize_idem (s : str) :
  strip (lower (strip (lower s))) = strip (lower s).
Proof. now rewrite <- strip_lower, lower_idem, strip_idem. Qed.

(** X1. The program normalises a text in two orders, [lower().strip()] in
    the listener, the consumer loop and the parser, [strip().lower()] in
    the matcher; both give the same text, and a text already normalised is
    left unchanged by either, so the repeated normalisation along the
    pipeline changes nothing after its first application. *)
Theorem normalisation_orders_agree (s : str) :
  lower (strip s) = strip (lower s)
  /\ strip (lower (strip (lower s))) = strip (lower s)
  /\ lower (strip (strip (lower s))) = strip (lower s).
Proof.
  split; [symmetry; apply strip_lower|]. split; [apply normalize_idem|].
  now rewrite strip_idem, <- strip_lower, lower_idem.
Qed.

(** ** What the two patterns accept *)

Section GreedyForward.
Variable A : Type.
Variable p : ascii -> bool.
Variable k : str -> str -> option A.

(** The quantifier tries its longest run first: when the rest of the
    pattern accepts there, that is the match. *)
Lemma greedy_star_longest (m rest acc : str) (r : A) :
  forallb p m = true ->
  match rest with c :: _ => p c = false | [] => True end ->
  k (acc ++ m) rest = Some r ->
  greedy_star p k acc (m ++ rest) = Some r.
Proof.
  revert acc. induction m as [|x m IH]; intros acc Hm Hrest Hk; simpl.
  - rewrite app_nil_r in Hk. destruct rest as [|c rest]; simpl; [exact Hk|].
    now rewrite Hrest.
  - simpl in Hm. apply andb_true_iff in Hm. destruct Hm as [Hx Hm].
    rewrite Hx, (IH (acc ++ [x]) Hm Hrest); [reflexivity|].
    now rewrite <- app_assoc.
Qed.

Lemma greedy_plus_longest (x : ascii) (m rest : str) (r : A) :
  p x = true -> forallb p m = true ->
  match rest with c :: _ => p c = false | [] => True end ->
  k (x :: m) rest = Some r ->
  greedy_plus p k ((x :: m) ++ rest) = Some r.
Proof.
  intros Hx Hm Hrest Hk. simpl. rewrite Hx.
  now apply greedy_star_longest.
Qed.
End GreedyForward.

Lemma space_not_digit (c : ascii) : is_space c = true -> is_digit c = false.
Proof.
  intros H. destruct (is_digit c) eqn:E; [|reflexivity].
  apply digit_not_space in E. congruence.
Qed.

Lemma space_not_az (c : ascii) : is_space c = true -> is_az c = false.
Proof.
  intros H. destruct (is_az c) eqn:E; [|reflexivity].
  apply az_not_space in E. congruence.
Qed.

Lemma digit_not_az (c : ascii) : is_digit c = true -> is_az c = false.
Proof. by_cases_on_char c. Qed.

Lemma head_of_nonempty (s : str) :
  s <> [] -> exists c s', s = c :: s'.
Proof. destruct s as [|c s']; [congruence|]. intros _. now exists c, s'. Qed.

(** [\s+(.+)$] on blanks followed by a one-line phrase that does not start
    with a blank. *)
Lemma re_tail_accepts (g1 ws item : str) :
  ws <> [] -> forallb is_space ws = true ->
  item <> [] -> lstrip item = item -> forallb is_dot item = true ->
  re_tail g1 (ws ++ item) = Some (g1, item).
Proof.
  intros Hws Hblank Hitem Hhead Hline.
  destruct (head_of_nonempty ws Hws) as (w & ws' & ->).
  destruct (head_of_nonempty item Hitem) as (c & item' & ->).
  simpl in Hblank, Hline.
  apply andb_true_iff in Hblank. destruct Hblank as [Hw Hws'].
  apply andb_true_iff in Hline. destruct Hline as [Hc Hitem'].
  assert (Hnb : is_space c = false).
  { pose proof (lstrip_head (c :: item')) as H. now rewrite Hhead in H. }
  unfold re_tail.
  apply greedy_plus_longest; [exact Hw|exact Hws'|exact Hnb|].
  pose proof (greedy_plus_longest _ is_dot
                (fun g2 s3 => if at_end s3 then Some (g1, g2) else None)
                c item' [] (g1, c :: item') Hc Hitem' I eq_refl) as H.
  now rewrite app_nil_r in H.
Qed.

(** A pattern whose group 1 is a run of the class [p], on a text that
    starts with such a run. *)
Lemma leading_group_accepts (p : ascii -> bool) (g1 ws item : str) :
  (forall c, p c = true -> is_space c = false) ->
  g1 <> [] -> forallb p g1 = true ->
  ws <> [] -> forallb is_space ws = true ->
  item <> [] -> lstrip item = item -> forallb is_dot item = true ->
  greedy_star is_space
    (fun _ s0 => greedy_plus p (fun g s1 => re_tail g s1) s0) []
    (g1 ++ ws ++ item)
  = Some (g1, item).
Proof.
  intros Hp Hg1 Hpg Hws Hblank Hitem Hhead Hline.
  destruct (head_of_nonempty g1 Hg1) as (d & g1' & ->).
  pose proof Hpg as Hpg'. simpl in Hpg'.
  apply andb_true_iff in Hpg'. destruct Hpg' as [Hd Hg1'].
  change ((d :: g1') ++ ws ++ item) with ([] ++ (d :: g1') ++ ws ++ item).
  apply greedy_star_longest; [reflexivity|simpl; now apply Hp|].
  cbn [app].
  destruct (head_of_nonempty ws Hws) as (w & ws' & Hw).
  change (d :: g1' ++ ws ++ item) with ((d :: g1') ++ ws ++ item).
  apply greedy_plus_longest; [exact Hd|exact Hg1'| |].
  - rewrite Hw. simpl. rewrite Hw in Hblank. simpl in Hblank.
    apply andb_true_iff in Hblank. destruct Hblank as [Hsp _].
    destruct (p w) eqn:E; [|reflexivity]. apply Hp in E. congruence.
  - now apply re_tail_accepts.
Qed.

(** A phrase that ends a stripped text does not end with a blank. *)
Lemma lstrip_length (s : str) : length (lstrip s) <= length s.
Proof.
  induction s as [|c s IH]; simpl; [lia|].
  destruct (is_space c); simpl; lia.
Qed.

Lemma rstrip_fixed_tail (pre item : str) :
  item <> [] -> rstrip (pre ++ item) = pre ++ item -> rstrip item = item.
Proof.
  intros Hne Hfix. unfold rstrip in *.
  destruct (rev item) as [|c r] eqn:Hrev.
  - apply (f_equal (@rev ascii)) in Hrev. rewrite rev_involutive in Hrev.
    simpl in Hrev. congruence.
  - rewrite rev_app_distr, Hrev in Hfix. simpl in *.
    destruct (is_space c) eqn:E.
    + exfalso. apply (f_equal (@length ascii)) in Hfix.
      rewrite length_rev in Hfix.
      pose proof (lstrip_length (r ++ rev pre)) as Hle.
      rewrite !length_app in Hfix. rewrite length_app in Hle.
      apply (f_equal (@length ascii)) in Hrev.
      rewrite length_rev in Hrev. simpl in Hrev.
      rewrite length_rev in *. lia.
    + rewrite <- Hrev. apply rev_involutive.
Qed.

Lemma strip_is_rstrip_fixed (s : str) : rstrip (strip s) = strip s.
Proof. unfold strip. apply rstrip_idem. Qed.

Lemma stripped_tail (text pre item : str) :
  strip text = pre ++ item -> item <> [] -> lstrip item = item ->
  strip item = item.
Proof.
  intros Htext Hne Hhead. unfold strip at 1. rewrite Hhead.
  apply rstrip_fixed_tail with pre; [exact Hne|].
  rewrite <- Htext. apply strip_is_rstrip_fixed.
Qed.



Lemma match_digits_rejects_letter (c : ascii) (rest : str) :
  is_space c = false -> is_digit c = false ->
  match_digits (c :: rest) = None.
Proof. intros Hs Hd. unfold match_digits. simpl. now rewrite Hs, Hd. Qed.

Lemma quantity_word_facts (w : str) (n : Z) :
  In (w, n) words_to_num ->
  w <> [] /\ forallb is_az w = true /\ dict_get words_to_num w = Some n
  /\ (1 <= n <= 10)%Z.
Proof.
  intros Hin. simpl in Hin.
  repeat (destruct Hin as [Hin|Hin];
          [inversion Hin; subst; clear Hin;
           repeat split; solve [discriminate | vm_compute; reflexivity
                                | vm_compute; discriminate]|]).
  contradiction.
Qed.

(** X3. When the normalised utterance is one of the words one..ten, then
    blanks, then a one-line phrase, [parse_quantity_and_item] returns the
    number the word names (between 1 and 10) and the phrase. *)
Theorem parse_word_then_phrase (text w ws item : str) (n : Z) :
  In (w, n) words_to_num ->
  strip (lower text) = w ++ ws ++ item ->
  ws <> [] -> forallb is_space ws = true ->
  item <> [] -> lstrip item = item -> forallb is_dot item = true ->
  parse_quantity_and_item text = (n, item) /\ (1 <= n <= 10)%Z.
Proof.
  intros Hin Htext Hws Hblank Hitem Hhead Hline.
  destruct (quantity_word_facts w n Hin) as (Hw & Haz & Hget & Hrange).
  split; [|exact Hrange].
  unfold parse_quantity_and_item. rewrite Htext.
  destruct (head_of_nonempty w Hw) as (c & w' & Hc).
  assert (Hcaz : is_az c = true).
  { rewrite Hc in Haz. simpl in Haz. now apply andb_true_iff in Haz. }
  assert (Hnone : match_digits (w ++ ws ++ item) = None).
  { rewrite Hc. apply match_digits_rejects_letter.
    - now apply az_not_space.
    - destruct (is_digit c) eqn:E; [|reflexivity].
      apply digit_not_az in E. congruence. }
  rewrite Hnone. unfold match_word.
  rewrite (leading_group_accepts is_az w ws item az_not_space)
    by assumption.
  rewrite Hget. f_equal.
  apply stripped_tail with (lower text) (w ++ ws);
    [now rewrite <- app_assoc|assumption|assumption].
Qed.

Lemma parse_word_then_phrase_witness :
  parse_quantity_and_item (py "Seven  iced coffee") = (7%Z, py "iced coffee")
  /\ (1 <= 7 <= 10)%Z.
Proof.
  apply (parse_word_then_phrase (py "Seven  iced coffee")
           (py "seven") (py "  ") (py "iced coffee") 7%Z);
    solve [vm_compute; reflexivity | discriminate
           | simpl; do 6 right; left; reflexivity].
Defined.

(** ** The phrase the parser hands on *)

Lemma app_same_length (A : Type) (a a' b b' : list A) :
  length a = length a' -> a ++ b = a' ++ b' -> a = a' /\ b = b'.
Proof.
  revert a'. induction a as [|x a IH]; intros [|x' a'] Hlen Heq;
    simpl in *; try discriminate.
  - now split.
  - inversion Heq; subst. destruct (IH a') as [-> ->]; auto.
Qed.

Lemma lower_fixed_part (pre mid post : str) :
  lower (pre ++ mid ++ post) = pre ++ mid ++ post -> lower mid = mid.
Proof.
  unfold lower. rewrite !map_app. intros H.
  apply app_same_length in H; [|apply length_map].
  destruct H as [_ H].
  apply app_same_length in H; [|apply length_map]. tauto.
Qed.

Lemma re_tail_group2 (g1 s a b : str) :
  re_tail g1 s = Some (a, b) -> exists pre post, s = pre ++ b ++ post.
Proof.
  unfold re_tail. intros H.
  apply greedy_plus_inv in H.
  destruct H as (c & m & rest & Hs & _ & _ & H1).
  apply greedy_plus_inv in H1.
  destruct H1 as (d & m' & rest' & Hrest & _ & _ & H2).
  destruct (at_end rest'); [|discriminate]. inversion H2; subst.
  exists (c :: m), rest'. reflexivity.
Qed.

Lemma leading_group_group2 (p : ascii -> bool) (text g1 g2 : str) :
  greedy_star is_space
    (fun _ s0 => greedy_plus p (fun g s1 => re_tail g s1) s0) [] text
  = Some (g1, g2) ->
  exists pre post, text = pre ++ g2 ++ post.
Proof.
  intros H.
  apply greedy_star_inv in H. destruct H as (ws & s0 & Htext & _ & H0).
  apply greedy_plus_inv in H0.
  destruct H0 as (d & m & s1 & Hs0 & _ & _ & H1).
  apply re_tail_group2 in H1. destruct H1 as (pre & post & Hs1). subst.
  exists (ws ++ d :: m ++ pre), post.
  rewrite <- !app_assoc. simpl. now rewrite <- !app_assoc.
Qed.

Lemma matcher_form_of_group (text g1 g2 : str) (p : ascii -> bool) :
  greedy_star is_space
    (fun _ s0 => greedy_plus p (fun g s1 => re_tail g s1) s0) []
    (strip (lower text))
  = Some (g1, g2) ->
  lower (strip (strip g2)) = strip g2.
Proof.
  intros H. apply leading_group_group2 in H.
  destruct H as (pre & post & Hparts).
  assert (Hlow : lower g2 = g2).
  { apply lower_fixed_part with pre post. rewrite <- Hparts.
    now rewrite <- strip_lower, lower_idem. }
  now rewrite strip_idem, <- strip_lower, Hlow.
Qed.

(** X4. Whatever the utterance, the quantity that
    [parse_quantity_and_item] returns is not negative, and the item phrase
    it returns is already in the form to which [fuzzy_lookup] normalises
    its argument (trimmed, lower case): the matcher looks up exactly the
    phrase the parser returned. *)
Theorem parse_returns_matcher_form (text : str) :
  (0 <= fst (parse_quantity_and_item text))%Z
  /\ lower (strip (snd (parse_quantity_and_item text)))
     = snd (parse_quantity_and_item text).
Proof.
  split; [apply parse_quantity_nonneg|].
  unfold parse_quantity_and_item.
  assert (Hdefault : lower (strip (strip (lower text))) = strip (lower text))
    by (now rewrite strip_idem, <- strip_lower, lower_idem).
  destruct (match_digits (strip (lower text))) as [[g1 g2]|] eqn:Hd;
    cbn [snd].
  - exact (matcher_form_of_group text g1 g2 is_digit Hd).
  - destruct (match_word (strip (lower text))) as [[g1 g2]|] eqn:Hw;
      cbn [snd]; [|exact Hdefault].
    destruct (dict_get words_to_num g1); cbn [snd]; [|exact Hdefault].
    exact (matcher_form_of_group text g1 g2 is_az Hw).
Qed.

(** ** What [fuzzy_lookup] answers *)

Section LookupFacts.
Variable price : Type.


Lemma In_index_row (df : catalog price) (label : str) :
  In label (index df) -> exists p, In (label, p) df.
Proof.
  unfold index. intros H. apply in_map_iff in H.
  destruct H as ([k p] & Hk & Hin). simpl in Hk. subst. now exists p.
Qed.

Lemma valid_cutoff_accepted (cutoff : Q) :
  (0 <= cutoff)%Q -> (cutoff <= 1)%Q ->
  negb (Qle_bool 0 cutoff && Qle_bool cutoff 1) = false.
Proof.
  intros H0 H1. apply Qle_bool_iff in H0. apply Qle_bool_iff in H1.
  now rewrite H0, H1.
Qed.



(** X6. For a catalog with unique names and a cutoff within [0, 1],
    [fuzzy_lookup] returns no match exactly when the normalised phrase is
    not a key and every key is less similar to it than the cutoff: a key
    at or above the cutoff is never passed over. *)
Theorem fuzzy_lookup_no_match_iff
        (df : catalog price) (text : str) (cutoff : Q) :
  NoDup (index df) -> (0 <= cutoff)%Q -> (cutoff <= 1)%Q ->
  (fuzzy_lookup text (Some df) cutoff = Ok None
   <-> (~ In (lower (strip text)) (index df)
        /\ forall key, In key (index df) ->
                       (ratio key (lower (strip text)) < cutoff)%Q)).
Proof.
  intros Hnd H0 H1. split.
  - intros Hnone. unfold fuzzy_lookup in Hnone.
    destruct (index_contains df (lower (strip text))) eqn:Hidx.
    + apply index_contains_In, In_index_row in Hidx.
      destruct Hidx as [p Hin].
      rewrite (loc_price_unique _ _ _ _ Hnd Hin) in Hnone. discriminate.
    + split.
      { intros Hin. apply index_contains_In in Hin. congruence. }
      intros key Hkey. apply Qnot_le_lt. intros Hle.
      apply close_enough_iff in Hle.
      unfold get_close_matches in Hnone.
      rewrite (valid_cutoff_accepted _ H0 H1) in Hnone.
      assert (Hcand : In (ratio key (lower (strip text)), key)
                (map (fun x => (ratio x (lower (strip text)), x))
                     (filter (close_enough (lower (strip text)) cutoff)
                             (index df)))).
      { apply in_map_iff. exists key. split; [reflexivity|].
        apply filter_In. now split. }
      set (cands := map (fun x => (ratio x (lower (strip text)), x))
                        (filter (close_enough (lower (strip text)) cutoff)
                                (index df))) in *.
      destruct cands as [|t l]; [contradiction|].
      unfold py_max in Hnone.
      destruct (fold_left (fun best x : scored =>
                             if scored_gtb x best then x else best) l t)
        as [s x].
      destruct (loc_price df x); discriminate.
  - intros [Hnot Hlow]. unfold fuzzy_lookup.
    assert (Hidx : index_contains df (lower (strip text)) = false).
    { destruct (index_contains df _) eqn:E; [|reflexivity].
      apply index_contains_In in E. contradiction. }
    rewrite Hidx. unfold get_close_matches.
    rewrite (valid_cutoff_accepted _ H0 H1).
    now rewrite (no_candidate_below_cutoff _ _ _ Hlow).
Qed.

(** X7. With a cutoff outside [0, 1], [fuzzy_lookup] raises [ValueError]
    on every phrase that is not itself a catalog key, whatever the
    catalog holds. *)
Theorem fuzzy_lookup_rejects_cutoff
        (df : catalog price) (text : str) (cutoff : Q) :
  ~ ((0 <= cutoff)%Q /\ (cutoff <= 1)%Q) ->
  ~ In (lower (strip text)) (index df) ->
  exists msg, fuzzy_lookup text (Some df) cutoff = Raise (ValueError msg).
Proof.
  intros Hout Hnot. unfold fuzzy_lookup.
  assert (Hidx : index_contains df (lower (strip text)) = false).
  { destruct (index_contains df _) eqn:E; [|reflexivity].
    apply index_contains_In in E. contradiction. }
  rewrite Hidx. unfold get_close_matches.
  destruct (Qle_bool 0 cutoff && Qle_bool cutoff 1) eqn:E.
  - exfalso. apply Hout. apply andb_true_iff in E.
    now rewrite !Qle_bool_iff in E.
  - simpl. eexists. reflexivity.
Qed.

(** X8. When the normalised phrase labels two or more rows of the catalog,
    [fuzzy_lookup] raises [TypeError] instead of answering: the price it
    selects is then a series, not a number. *)
Theorem fuzzy_lookup_duplicate_label
        (df : catalog price) (text : str) (cutoff : Q) :
  2 <= length (filter (fun row => str_eqb (lower (strip text)) (fst row)) df)
  ->
  exists msg, fuzzy_lookup text (Some df) cutoff = Raise (TypeError msg).
Proof.
  intros Hdup. unfold fuzzy_lookup.
  assert (Hidx : index_contains df (lower (strip text)) = true).
  { destruct (filter _ df) as [|[k p] rows] eqn:Hf; [simpl in Hdup; lia|].
    assert (Hin : In (k, p)
                     (filter (fun row => str_eqb (lower (strip text))
                                                 (fst row)) df))
      by (rewrite Hf; now left).
    apply filter_In in Hin. destruct Hin as [Hin Heq].
    apply str_eqb_eq in Heq. simpl in Heq. subst k.
    apply index_contains_In. apply (in_map fst) in Hin. exact Hin. }
  rewrite Hidx. unfold loc_price.
  destruct (filter _ df) as [|r [|r' rows]]; simpl in Hdup; try lia.
  eexists. reflexivity.
Qed.
End LookupFacts.


Lemma fuzzy_lookup_no_match_iff_witness :
  let df : catalog Q := [(py "coffee", 50%Q); (py "tea", 30%Q)] in
  fuzzy_lookup (py "samosa") (Some df) default_cutoff = Ok None
  <-> (~ In (lower (strip (py "samosa"))) (index df)
       /\ forall key, In key (index df) ->
                      (ratio key (lower (strip (py "samosa")))
                       < default_cutoff)%Q).
Proof.
  apply (fuzzy_lookup_no_match_iff Q
           [(py "coffee", 50%Q); (py "tea", 30%Q)] (py "samosa")
           default_cutoff).
  - repeat constructor; simpl; intuition discriminate.
  - vm_compute. discriminate.
  - vm_compute. discriminate.
Defined.

Lemma fuzzy_lookup_rejects_cutoff_witness :
  exists msg,
    fuzzy_lookup (py "cofee") (Some [(py "coffee", 50%Q)]) (60 # 1)%Q
    = Raise (ValueError msg).
Proof.
  apply (fuzzy_lookup_rejects_cutoff Q [(py "coffee", 50%Q)] (py "cofee")
           (60 # 1)%Q).
  - intros [_ H]. vm_compute in H. apply H. reflexivity.
  - simpl. intros [H|[]]. vm_compute in H. discriminate.
Defined.

Lemma fuzzy_lookup_duplicate_label_witness :
  exists msg,
    fuzzy_lookup (py "Tea")
                 (Some [(py "tea", 30%Q); (py "coffee", 50%Q);
                        (py "tea", 35%Q)])
                 default_cutoff
    = Raise (TypeError msg).
Proof.
  apply (fuzzy_lookup_duplicate_label Q
           [(py "tea", 30%Q); (py "coffee", 50%Q); (py "tea", 35%Q)]
           (py "Tea") default_cutoff).
  vm_compute. lia.
Defined.

(** ** The consumer loop, utterance by utterance *)

Ltac run_steps :=
  unfold bind, gets, lift, ret, modify, emit, talk, add_log, datetime_now,
    raise, try_except;
  cbn [fst snd state clock trace price_df items logs is_listening
       speech_queue customer_name set_items set_logs set_speech_queue
       set_customer_name set_price_df set_is_listening clear_bill].

Section LoopFacts.
Context {price : Type} {ops : PriceOps price}.
Variable env : Env price.

(** The two ways one utterance can end.  When it succeeds, one entry has
    been logged at the current clock reading and one reply spoken, and
    what is not the ledger, the log or the customer is as before; when it
    raises, it is the lookup that raised, and nothing has been done. *)
Lemma process_utterance_outcome (raw : str) (w : World price) :
  match process_utterance env raw w with
  | (Ok _, w') =>
      (exists text reply,
          logs (state w')
          = push_log (log_entry (now env (clock w)) text) (logs (state w))
          /\ trace w' = trace w ++ [Talk reply])
      /\ clock w' = S (clock w)
      /\ speech_queue (state w') = speech_queue (state w)
      /\ price_df (state w') = price_df (state w)
      /\ is_listening (state w') = is_listening (state w)
  | (Raise e, w') =>
      w' = w
      /\ startswith (strip (lower raw)) (py "name ") = false
      /\ fuzzy_lookup (snd (parse_quantity_and_item (strip (lower raw))))
                      (price_df (state w)) default_cutoff
         = Raise e
  end.
Proof.
  unfold process_utterance.
  destruct (startswith _ _) eqn:Hname.
  - run_steps. split; [eexists; eexists; split; reflexivity|].
    repeat split.
  - destruct (parse_quantity_and_item _) as [q name]. run_steps.
    destruct (price_df (state w)) as [df|] eqn:Hdf; run_steps.
    + destruct (fuzzy_lookup name (Some df) default_cutoff)
        as [[[k p]|]|e] eqn:Hf; run_steps.
      * destruct (truthy k); run_steps;
          (split; [eexists; eexists; split; reflexivity|]);
          repeat split; assumption.
      * split; [eexists; eexists; split; reflexivity|].
        repeat split; assumption.
      * destruct w. repeat split.
    + split; [eexists; eexists; split; reflexivity|].
      repeat split; assumption.
Qed.

(** X9. Each utterance that the consumer loop processes has exactly one
    of two effects: either one log entry, stamped with the current clock
    reading, and one spoken reply, or (when the catalog lookup raises) no
    effect at all on the state, the clock or the outside. *)
Theorem utterance_one_entry_one_reply (raw : str) (w : World price) :
  let w' := snd (process_utterance env raw w) in
  (exists text reply,
      logs (state w')
      = push_log (log_entry (now env (clock w)) text) (logs (state w))
      /\ trace w' = trace w ++ [Talk reply]
      /\ clock w' = S (clock w))
  \/ ((exists e, fst (process_utterance env raw w) = Raise e) /\ w' = w).
Proof.
  pose proof (process_utterance_outcome raw w) as H.
  destruct (process_utterance env raw w) as [[u|e] w']; cbn [fst snd].
  - destruct H as ((text & reply & Hlogs & Htrace) & Hclock & _).
    left. exists text, reply. auto.
  - right. split; [now exists e|tauto].
Qed.

Lemma drain_cons_result (raw : str) (pending : list str) (w : World price) :
  drain env (raw :: pending) w
  = let popped := {| state := set_speech_queue pending (state w);
                     clock := clock w; trace := trace w |} in
    match process_utterance env raw popped with
    | (Ok _, w') => drain env pending w'
    | (Raise e, w') => (Raise e, w')
    end.
Proof.
  cbn [drain]. unfold bind at 1 2, modify. cbv zeta.
  now destruct (process_utterance env raw _) as [[u|e] w'].
Qed.

Lemma poll_updates_result (w : World price) :
  poll_updates env w
  = match drain env (speech_queue (state w)) w with
    | (Ok _, w') =>
        (Ok {| log_elements := rev (logs (state w'));
               table_body := items (state w');
               view_subtotal := subtotal (items (state w')) |}, w')
    | (Raise e, w') => (Raise e, w')
    end.
Proof.
  unfold poll_updates. run_steps.
  now destruct (drain env (speech_queue (state w)) w) as [[u|e] w'].
Qed.

Lemma drain_queue (pending : list str) :
  forall w : World price,
    speech_queue (state w) = pending ->
    match drain env pending w with
    | (Ok _, w') => speech_queue (state w') = []
    | (Raise _, w') =>
        exists before raw,
          pending = before ++ raw :: speech_queue (state w')
    end.
Proof.
  induction pending as [|raw pending IH]; intros w Hq.
  - exact Hq.
  - rewrite drain_cons_result. cbv zeta.
    set (w1 := {| state := set_speech_queue pending (state w);
                  clock := clock w; trace := trace w |}).
    pose proof (process_utterance_outcome raw w1) as Hstep.
    destruct (process_utterance env raw w1) as [[u|e] w2].
    + destruct Hstep as (_ & _ & Hq2 & _).
      specialize (IH w2 Hq2).
      destruct (drain env pending w2) as [[u'|e] w3]; [exact IH|].
      destruct IH as (before & raw' & Hrest).
      exists (raw :: before), raw'. simpl. now rewrite <- Hrest.
    + destruct Hstep as (-> & _). now exists [], raw.
Qed.

(** X10. [poll_updates] either drains the whole queue and returns, or
    raises at one utterance, which it has consumed: the utterances behind
    that one are still queued, in their order, for the next call. *)
Theorem poll_updates_queue (w : World price) :
  match poll_updates env w with
  | (Ok _, w') => speech_queue (state w') = []
  | (Raise _, w') =>
      exists before raw,
        speech_queue (state w) = before ++ raw :: speech_queue (state w')
  end.
Proof.
  rewrite poll_updates_result.
  pose proof (drain_queue (speech_queue (state w)) w eq_refl) as H.
  now destruct (drain env (speech_queue (state w)) w) as [[u|e] w'].
Qed.

(** X11. Once [poll_updates] has returned, calling it again (before the
    listener has queued anything) returns the same view and changes
    nothing: not the state, not the clock, not the outside. *)
Theorem poll_updates_again (w w' : World price) (v : View) :
  poll_updates env w = (Ok v, w') ->
  poll_updates env w' = (Ok v, w').
Proof.
  intros Hpoll.
  pose proof (drain_queue (speech_queue (state w)) w eq_refl) as Hq.
  rewrite poll_updates_result in Hpoll.
  destruct (drain env (speech_queue (state w)) w) as [[u|e] w1];
    [|discriminate].
  inversion Hpoll; subst. clear Hpoll.
  rewrite poll_updates_result, Hq. reflexivity.
Qed.





(** X13. As long as no catalog is loaded, [poll_updates] appends nothing
    to the ledger, whatever is said. *)
Theorem no_catalog_no_row (w : World price) :
  price_df (state w) = None ->
  items (state (snd (poll_updates env w))) = items (state w).
Proof.
  intros Hnone. rewrite poll_updates_state.
  destruct (drain_appends env (speech_queue (state w)) w)
    as (_ & appended & Hitems & _ & Hrows).
  destruct appended as [|it rest]; [now rewrite app_nil_r in Hitems|].
  destruct (Hrows it (or_introl eq_refl)) as (_ & _ & df & Hsome & _).
  congruence.
Qed.


End LoopFacts.


(** ** The export *)

Section ExportFacts.
Context {price : Type} {ops : PriceOps price}.

(** [print_bill] on a non-empty ledger, step by step. *)
Lemma print_bill_run (env : Env price) (it : LineItem price)
      (its : list (LineItem price)) (w : World price) :
  items (state w) = it :: its ->
  print_bill env w
  = let filename := export_filename env w in
    let bill := export_bill env w in
    let t := now env (S (S (clock w))) in
    match pdf_error env filename bill with
    | Some e =>
        (Ok py_None,
         {| state := set_logs
                       (push_log (log_entry t (py "Print error: "
                                               ++ str_of_exn e))
                                 (logs (state w)))
                       (state w);
            clock := S (S (S (clock w)));
            trace := trace w |})
    | None =>
        let generated :=
          push_log (log_entry t (py "PDF Generated: " ++ filename))
                   (logs (state w)) in
        let written :=
          trace w ++ [PdfWritten filename bill;
                      Talk (py "Bill generated successfully")] in
        match open_error env filename with
        | Some e =>
            (Ok py_None,
             {| state := set_logs
                           (push_log
                              (log_entry (now env (S (S (S (clock w)))))
                                         (py "Print error: " ++ str_of_exn e))
                              generated)
                           (state w);
                clock := S (S (S (S (clock w))));
                trace := written |})
        | None =>
            (Ok py_None,
             {| state := clear_bill (set_logs generated (state w));
                clock := S (S (S (clock w)));
                trace := written
                         ++ [FileOpened filename;
                             Talk (py "Bill cleared. Ready for a new bill.")]
             |})
        end
    end.
Proof.
  intros Hits. unfold export_filename, export_bill.
  unfold print_bill, bind, gets, try_except, generate_bill_pdf, open_file.
  simpl. rewrite Hits. simpl.
  destruct (pdf_error env _ _) as [e|]; simpl; [reflexivity|].
  destruct (open_error env _) as [e|]; simpl;
    now rewrite <- ?app_assoc.
Qed.

Lemma print_bill_run_empty (env : Env price) (w : World price) :
  items (state w) = [] ->
  print_bill env w
  = (Ok no_update,
     {| state := set_logs
                   (push_log (log_entry (now env (clock w))
                                        (py "Cannot print empty bill."))
                             (logs (state w)))
                   (state w);
        clock := S (clock w);
        trace := trace w |}).
Proof.
  intros Hits. unfold print_bill, bind, gets. simpl. now rewrite Hits.
Qed.

(** X15. [print_bill] never raises, whatever the renderer and the opener
    do; it returns [no_update] exactly when the ledger is empty; and it
    never touches the catalog, the queue of utterances or the listening
    flag. *)
Theorem print_bill_never_raises (env : Env price) (w : World price) :
  let w' := snd (print_bill env w) in
  (exists v, fst (print_bill env w) = Ok v
             /\ (v = no_update <-> items (state w) = []))
  /\ price_df (state w') = price_df (state w)
  /\ speech_queue (state w') = speech_queue (state w)
  /\ is_listening (state w') = is_listening (state w).
Proof.
  destruct (items (state w)) as [|it its] eqn:Hits.
  - rewrite (print_bill_run_empty env w Hits). cbn.
    split; [exists no_update; tauto|]. auto.
  - rewrite (print_bill_run env it its w Hits). cbv zeta.
    destruct (pdf_error env _ _) as [e|];
      [|destruct (open_error env _) as [e|]]; cbn;
      (split; [exists py_None; split; [reflexivity|split; discriminate]|]);
      auto.
Qed.

(** X16. On a non-empty ledger: when the renderer does not raise, exactly
    one document is written, under the file name stamped with the time of
    the call, and it carries the rows of the ledger in their order, the
    customer name, and 0 for both percentages; when the renderer raises,
    nothing at all goes out. *)
Theorem print_bill_document (env : Env price) (w : World price) :
  items (state w) <> [] ->
  let w' := snd (print_bill env w) in
  match pdf_error env (export_filename env w) (export_bill env w) with
  | None =>
      exists bill rest,
        trace w' = trace w ++ PdfWritten (export_filename env w) bill :: rest
        /\ bill_items bill = items (state w)
        /\ bill_customer_name bill = customer_name (state w)
        /\ gst_percent bill = 0%Z /\ discount_percent bill = 0%Z
        /\ Forall not_a_document rest
  | Some _ => trace w' = trace w
  end.
Proof.
  intros Hne. destruct (items (state w)) as [|it its] eqn:Hits;
    [congruence|].
  cbv zeta. rewrite (print_bill_run env it its w Hits). cbv zeta.
  destruct (pdf_error env _ _) as [e|]; [reflexivity|].
  exists (export_bill env w).
  destruct (open_error env _) as [e|]; cbn [snd trace].
  - exists [Talk (py "Bill generated successfully")].
    repeat split; auto. repeat constructor.
  - exists [Talk (py "Bill generated successfully");
            FileOpened (export_filename env w);
            Talk (py "Bill cleared. Ready for a new bill.")].
    rewrite <- app_assoc. repeat split; auto. repeat constructor.
Qed.

(** X17. After an export that succeeded, pressing the button again writes
    no document: it only logs "Cannot print empty bill.", which is then
    the single entry of the log. *)
Theorem print_bill_twice (env : Env price) (w : World price) :
  items (state w) <> [] -> export_failure env w = None ->
  let w1 := snd (print_bill env w) in
  let w2 := snd (print_bill env w1) in
  fst (print_bill env w1) = Ok no_update
  /\ trace w2 = trace w1
  /\ items (state w2) = []
  /\ logs (state w2)
     = [log_entry (now env (clock w1)) (py "Cannot print empty bill.")].
Proof.
  intros Hne Hok. destruct (items (state w)) as [|it its] eqn:Hits;
    [congruence|].
  cbv zeta. rewrite (print_bill_run env it its w Hits). cbv zeta.
  unfold export_failure in Hok.
  destruct (pdf_error env _ _) as [e|]; [discriminate|].
  destruct (open_error env _) as [e|]; [discriminate|].
  cbn [snd]. rewrite print_bill_run_empty by reflexivity.
  cbn. auto.
Qed.

(** X18. After an export that failed, a second attempt whose renderer
    does not raise writes the very rows and customer name of the first
    attempt: a failure loses nothing of the bill. *)
Theorem print_bill_retry (env env' : Env price) (w : World price) (e : exn) :
  items (state w) <> [] -> export_failure env w = Some e ->
  let w1 := snd (print_bill env w) in
  pdf_error env' (export_filename env' w1) (export_bill env' w1) = None ->
  exists bill rest,
    trace (snd (print_bill env' w1))
    = trace w1 ++ PdfWritten (export_filename env' w1) bill :: rest
    /\ bill_items bill = items (state w)
    /\ bill_customer_name bill = customer_name (state w).
Proof.
  intros Hne Hfail. cbv zeta.
  destruct (print_bill_cases env w Hne) as [_ Hcases].
  unfold export_failure in Hfail.
  set (w1 := snd (print_bill env w)) in *.
  assert (Hkept : items (state w1) = items (state w)
                  /\ customer_name (state w1) = customer_name (state w)).
  { destruct (pdf_error env _ _) as [e1|].
    - tauto.
    - destruct (open_error env _) as [e2|]; [tauto|discriminate]. }
  destruct Hkept as [Hitems Hcust]. intros Hrender.
  assert (Hbill : bill_items (export_bill env' w1) = items (state w)
                  /\ bill_customer_name (export_bill env' w1)
                     = customer_name (state w)).
  { unfold export_bill, make_bill_data.
    cbn [bill_items bill_customer_name]. now split. }
  destruct Hbill as [Hbi Hbc].
  assert (Hne1 : exists it its, items (state w1) = it :: its).
  { destruct (items (state w1)) as [|it its]; [congruence|].
    now exists it, its. }
  destruct Hne1 as (it & its & Hits1).
  rewrite (print_bill_run env' it its w1 Hits1). cbv zeta.
  rewrite Hrender. exists (export_bill env' w1).
  destruct (open_error env' _) as [e2|]; cbn [snd trace];
    eexists; (split; [|split; [exact Hbi|exact Hbc]]).
  - reflexivity.
  - rewrite <- app_assoc. reflexivity.
Qed.
End ExportFacts.

(** ** Loading the catalog *)

Section LoadFacts.
Context {price : Type} {ops : PriceOps price}.
Variable env : Env price.

Lemma load_excel_catalog (rows : list (str * price)) (filename : str)
      (w : World price) :
  price_df (state (snd (load_excel env (Some rows) filename w)))
  = Some (map (fun row => (strip (lower (fst row)), snd row)) rows).
Proof. reflexivity. Qed.

(** X19. A successful load replaces the catalog by one with the same
    prices in the same order, whose names are all lower case and trimmed;
    it leaves the ledger and the customer alone.  A load that fails leaves
    the whole state, and so the previous catalog, as it was. *)
Theorem load_excel_normalises_names
        (rows : list (str * price)) (filename : str) (w : World price) :
  let w' := snd (load_excel env (Some rows) filename w) in
  (exists df,
      price_df (state w') = Some df
      /\ map snd df = map snd rows
      /\ forall name, In name (index df) ->
                      lower name = name /\ strip name = name)
  /\ items (state w') = items (state w)
  /\ customer_name (state w') = customer_name (state w)
  /\ snd (load_excel env None filename w) = w.
Proof.
  cbv zeta. split; [|repeat split].
  exists (map (fun row => (strip (lower (fst row)), snd row)) rows).
  split; [apply load_excel_catalog|]. split.
  - rewrite map_map. reflexivity.
  - intros name Hin. unfold index in Hin. rewrite map_map in Hin.
    apply in_map_iff in Hin. destruct Hin as (row & <- & _). cbn [fst].
    split; [now rewrite <- strip_lower, lower_idem|apply strip_idem].
Qed.

(** X20. Load, then look up: when the names of the sheet are unique once
    normalised, looking up a name as the sheet spells it (any case, any
    surrounding blanks) returns its normalised form and its own price,
    whatever the cutoff. *)
Theorem load_then_lookup
        (rows : list (str * price)) (filename raw : str) (p : price)
        (cutoff : Q) (w : World price) :
  NoDup (map (fun row => strip (lower (fst row))) rows) ->
  In (raw, p) rows ->
  fuzzy_lookup raw
               (price_df (state (snd (load_excel env (Some rows) filename w))))
               cutoff
  = Ok (Some (strip (lower raw), p)).
Proof.
  intros Hnd Hin. rewrite load_excel_catalog.
  set (df := map (fun row => (strip (lower (fst row)), snd row)) rows).
  assert (Hnd' : NoDup (index df))
    by (unfold index, df; now rewrite map_map).
  assert (Hrow : In (strip (lower raw), p) df).
  { unfold df. apply in_map_iff. now exists (raw, p). }
  unfold fuzzy_lookup. rewrite <- strip_lower.
  assert (Hidx : index_contains df (strip (lower raw)) = true).
  { apply index_contains_In. apply (in_map fst) in Hrow. exact Hrow. }
  now rewrite Hidx, (loc_price_unique _ _ _ _ Hnd' Hrow).
Qed.
End LoadFacts.

Lemma load_then_lookup_witness :
  fuzzy_lookup (py "Coffee ")
    (price_df (state (snd (load_excel working_env (Some sample_rows)
                                      (py "prices.xlsx") init_world))))
    default_cutoff
  = Ok (Some (py "coffee", 50%Q)).
Proof.
  apply (load_then_lookup working_env sample_rows (py "prices.xlsx")
           (py "Coffee ") 50%Q default_cutoff init_world).
  - repeat constructor; simpl; intuition discriminate.
  - left. reflexivity.
Defined.

(** ** The two buttons and the listener *)

Section ListenerFacts.
Context {price : Type} {ops : PriceOps price}.
Variable env : Env price.

(** X21. A second click on the same button does nothing: it updates no
    button, starts no thread, and leaves the stop signal, the state and
    the outside as the first click left them. *)
Theorem toggle_listening_twice
        (triggered : list str) (c : Controls) (w : World price) :
  exists out c1 w1,
    toggle_listening triggered c w = (Ok (out, c1), w1)
    /\ toggle_listening triggered c1 w1 = (Ok ((None, None), c1), w1).
Proof.
  unfold toggle_listening. destruct triggered as [|prop_id rest].
  - exists (None, None), c, w. split; reflexivity.
  - run_steps.
    destruct (str_eqb (before_dot prop_id) (py "btn-start")) eqn:Hstart.
    + destruct (is_listening (state w)) eqn:Hl; cbn [negb].
      * exists (None, None), c, w. rewrite Hl. split; reflexivity.
      * eexists. eexists. eexists. split; [reflexivity|]. reflexivity.
    + destruct (str_eqb (before_dot prop_id) (py "btn-stop")) eqn:Hstop.
      * destruct (is_listening (state w)) eqn:Hl.
        -- eexists. eexists. eexists. split; [reflexivity|]. reflexivity.
        -- exists (None, None), c, w. rewrite Hl. split; reflexivity.
      * exists (None, None), c, w. split; reflexivity.
Qed.

Lemma toggle_listening_step
      (triggered : list str) (c : Controls) (w : World price) :
  exists out c1 w1,
    toggle_listening triggered c w = (Ok (out, c1), w1)
    /\ threads_started c1 + (if is_listening (state w) then 1 else 0)
       <= threads_started c + (if is_listening (state w1) then 1 else 0)
          + (if is_click (py "btn-stop") triggered then 1 else 0)
    /\ ((is_listening (state w) = true -> stop_event c = false) ->
        is_listening (state w1) = true -> stop_event c1 = false).
Proof.
  unfold toggle_listening, is_click. destruct triggered as [|prop_id rest].
  - exists (None, None), c, w. repeat split; auto.
    destruct (is_listening (state w)); lia.
  - run_steps.
    destruct (str_eqb (before_dot prop_id) (py "btn-start")) eqn:Hstart.
    + destruct (is_listening (state w)) eqn:Hl; cbn [negb].
      * exists (None, None), c, w. rewrite Hl. repeat split; auto. lia.
      * eexists. eexists. eexists. split; [reflexivity|].
        cbn. split; [lia|reflexivity].
    + destruct (str_eqb (before_dot prop_id) (py "btn-stop")) eqn:Hstop.
      * destruct (is_listening (state w)) eqn:Hl.
        -- eexists. eexists. eexists. split; [reflexivity|].
           cbn. split; [lia|discriminate].
        -- exists (None, None), c, w. rewrite Hl. repeat split; auto. lia.
      * exists (None, None), c, w. repeat split; auto.
        destruct (is_listening (state w)); lia.
Qed.

(** X22. Over any run of clicks, the listener threads started are at most
    one more than the stop clicks (none more, when the run began while
    listening): clicking start again while listening never starts a
    second thread.  And whenever the application says it is listening,
    the stop signal is clear. *)
Theorem clicks_start_one_thread_per_stop (fired : list (list str)) :
  forall (c : Controls) (w : World price),
  exists c' w',
    clicks fired c w = (Ok c', w')
    /\ threads_started c' + (if is_listening (state w) then 1 else 0)
       <= threads_started c + (if is_listening (state w') then 1 else 0)
          + length (filter (is_click (py "btn-stop")) fired)
    /\ ((is_listening (state w) = true -> stop_event c = false) ->
        is_listening (state w') = true -> stop_event c' = false).
Proof.
  induction fired as [|triggered fired IH]; intros c w.
  - exists c, w. repeat split; auto. simpl. lia.
  - destruct (toggle_listening_step triggered c w)
      as (out & c1 & w1 & Hrun & Hcount & Hsignal).
    destruct (IH c1 w1) as (c' & w' & Hrest & Hcount' & Hsignal').
    exists c', w'. split; [|split].
    + cbn [clicks]. unfold bind. rewrite Hrun. exact Hrest.
    + cbn [filter].
      destruct (is_click (py "btn-stop") triggered); cbn [length]; lia.
    + auto.
Qed.


End ListenerFacts.

(** ** What every run keeps *)

Section RunFacts.
Context {price : Type} {ops : PriceOps price}.
Variable env : Env price.

Lemma process_utterance_tidy (raw : str) (w : World price) :
  tidy (state w) -> tidy (state (snd (process_utterance env raw w))).
Proof.
  intros (Hrows & Hcust & Hqueue). unfold process_utterance.
  destruct (startswith _ _).
  - run_steps. split; [exact Hrows|]. split; [apply strip_idem|exact Hqueue].
  - pose proof (parse_quantity_nonneg (strip (lower raw))) as Hq.
    destruct (parse_quantity_and_item _) as [q name]. cbn [fst] in Hq.
    run_steps.
    destruct (price_df (state w)) as [df|]; run_steps;
      [|now repeat split].
    destruct (fuzzy_lookup name (Some df) default_cutoff)
      as [[[k p]|]|e]; run_steps; [|now repeat split|now repeat split].
    destruct (truthy k) eqn:Hk; run_steps; [|now repeat split].
    split; [|now split].
    apply Forall_app. split; [exact Hrows|].
    constructor; [|constructor]. split; assumption.
Qed.

Lemma drain_tidy (pending : list str) :
  forall w : World price,
    Forall normalised pending -> tidy (state w) ->
    tidy (state (snd (drain env pending w))).
Proof.
  induction pending as [|raw pending IH]; intros w Hnorm Ht.
  - exact Ht.
  - rewrite drain_cons. cbv zeta.
    inversion Hnorm as [|? ? _ Hnorm']; subst.
    set (w1 := {| state := set_speech_queue pending (state w);
                  clock := clock w; trace := trace w |}).
    assert (Ht1 : tidy (state w1)).
    { destruct Ht as (Hrows & Hcust & _). repeat split; assumption. }
    pose proof (process_utterance_tidy raw w1 Ht1) as Ht2.
    destruct (process_utterance env raw w1) as [[u|e] w2]; cbn [snd] in *.
    + now apply IH.
    + exact Ht2.
Qed.

Lemma print_bill_tidy (w : World price) :
  tidy (state w) -> tidy (state (snd (print_bill env w))).
Proof.
  intros Ht. destruct (items (state w)) as [|it its] eqn:Hits.
  - rewrite (print_bill_run_empty env w Hits). exact Ht.
  - rewrite (print_bill_run env it its w Hits). cbv zeta.
    destruct Ht as (Hrows & Hcust & Hqueue).
    destruct (pdf_error env _ _) as [e|];
      [|destruct (open_error env _) as [e|]]; cbn [snd state].
    + repeat split; assumption.
    + repeat split; assumption.
    + split; [constructor|]. split; [reflexivity|exact Hqueue].
Qed.

Lemma step_tidy (w w' : World price) :
  step env w w' -> tidy (state w) -> tidy (state w').
Proof.
  intros Hstep Ht. destruct Hstep.
  - destruct rows as [rows|]; [|exact Ht]. exact Ht.
  - unfold start_listening. run_steps.
    destruct (is_listening (state w)); exact Ht.
  - unfold stop_listening. run_steps.
    destruct (is_listening (state w)); exact Ht.
  - exact Ht.
  - destruct Ht as (Hrows & Hcust & Hqueue).
    split; [exact Hrows|]. split; [exact Hcust|].
    unfold listener_heard. run_steps. apply Forall_app.
    split; [exact Hqueue|]. constructor; [|constructor].
    apply normalize_idem.
  - exact Ht.
  - rewrite poll_updates_state. apply drain_tidy; [|exact Ht].
    now destruct Ht as (_ & _ & Hqueue).
  - now apply print_bill_tidy.
Qed.

Lemma reachable_tidy (w : World price) :
  reachable env w -> tidy (state w).
Proof.
  induction 1 as [|w w' _ IH Hstep].
  - split; [constructor|]. split; [reflexivity|constructor].
  - exact (step_tidy _ _ Hstep IH).
Qed.

(** X24. In every run of the application, every row of the ledger has a
    non-empty item name and a quantity that is not negative. *)
Theorem ledger_rows_are_named (w : World price) :
  reachable env w ->
  forall it, In it (items (state w)) ->
             item it <> [] /\ (0 <= qty it)%Z.
Proof.
  intros Hreach it Hin.
  destruct (reachable_tidy w Hreach) as (Hrows & _).
  rewrite Forall_forall in Hrows. destruct (Hrows it Hin) as [Hname Hqty].
  split; [|exact Hqty]. intros Hnil. rewrite Hnil in Hname. discriminate.
Qed.

(** X25. In every run, the customer name has no blank at either end, and
    every utterance waiting in the queue is already normalised, so that
    the normalisation [poll_updates] applies to it changes nothing. *)
Theorem texts_are_normalised (w : World price) :
  reachable env w ->
  strip (customer_name (state w)) = customer_name (state w)
  /\ forall raw, In raw (speech_queue (state w)) ->
                 strip (lower raw) = raw.
Proof.
  intros Hreach.
  destruct (reachable_tidy w Hreach) as (_ & Hcust & Hqueue).
  split; [exact Hcust|].
  intros raw Hin. rewrite Forall_forall in Hqueue. now apply Hqueue.
Qed.
End RunFacts.

(** ** The further properties on the sample runs *)


Lemma poll_updates_again_witness :
  exists v,
    poll_updates working_env scenario_heard = (Ok v, scenario_polled)
    /\ poll_updates working_env scenario_polled = (Ok v, scenario_polled).
Proof.
  exists {| log_elements := rev (logs (state scenario_polled));
            table_body := items (state scenario_polled);
            view_subtotal := subtotal (items (state scenario_polled)) |}.
  assert (H : poll_updates working_env scenario_heard
              = (Ok {| log_elements := rev (logs (state scenario_polled));
                       table_body := items (state scenario_polled);
                       view_subtotal :=
                         subtotal (items (state scenario_polled)) |},
                 scenario_polled))
    by (vm_compute; reflexivity).
  split; [exact H|].
  exact (poll_updates_again working_env _ _ _ H).
Defined.


Lemma no_catalog_no_row_witness :
  let heard : World Q :=
    snd (listener_heard (py "2 coffee") init_world) in
  price_df (state heard) = None
  /\ items (state (snd (poll_updates working_env heard))) = [].
Proof.
  cbv zeta. split; [reflexivity|].
  apply (no_catalog_no_row working_env
           (snd (listener_heard (py "2 coffee") init_world))).
  reflexivity.
Defined.


Lemma print_bill_document_witness :
  items (state full_log_world) <> []
  /\ trace (snd (print_bill failing_env full_log_world)) = []
  /\ exists bill rest,
       trace (snd (print_bill working_env full_log_world))
       = PdfWritten (py "Bill_20240517_093000.pdf") bill :: rest
       /\ bill_items bill = items (state full_log_world)
       /\ bill_customer_name bill = py "alice"
       /\ gst_percent bill = 0%Z /\ discount_percent bill = 0%Z
       /\ Forall not_a_document rest.
Proof.
  assert (Hne : items (state full_log_world) <> [])
    by (vm_compute; discriminate).
  split; [exact Hne|]. split.
  - exact (print_bill_document failing_env full_log_world Hne).
  - exact (print_bill_document working_env full_log_world Hne).
Defined.

Lemma print_bill_twice_witness :
  let w1 := snd (print_bill working_env full_log_world) in
  fst (print_bill working_env w1) = Ok no_update
  /\ trace (snd (print_bill working_env w1)) = trace w1
  /\ items (state (snd (print_bill working_env w1))) = []
  /\ logs (state (snd (print_bill working_env w1)))
     = [py "[09:30:03] Cannot print empty bill."].
Proof.
  apply (print_bill_twice working_env full_log_world).
  - vm_compute. discriminate.
  - vm_compute. reflexivity.
Defined.

Lemma print_bill_retry_witness :
  let w1 := snd (print_bill failing_env full_log_world) in
  exists bill rest,
    trace (snd (print_bill working_env w1))
    = trace w1 ++ PdfWritten (export_filename working_env w1) bill :: rest
    /\ bill_items bill = items (state full_log_world)
    /\ bill_customer_name bill = py "alice".
Proof.
  apply (print_bill_retry failing_env working_env full_log_world
           (OSError (py "disk full"))).
  - vm_compute. discriminate.
  - vm_compute. reflexivity.
  - vm_compute. reflexivity.
Defined.

Lemma clicks_start_one_thread_per_stop_witness :
  let fired := [[py "btn-start.n_clicks"]; [py "btn-start.n_clicks"];
                [py "btn-stop.n_clicks"]; [py "btn-start.n_clicks"]] in
  exists (c' : Controls) (w' : World Q),
    clicks fired init_controls init_world = (Ok c', w')
    /\ threads_started c' + 0
       <= 0 + (if is_listening (state w') then 1 else 0) + 1
    /\ ((false = true -> false = false) ->
        is_listening (state w') = true -> stop_event c' = false).
Proof.
  exact (clicks_start_one_thread_per_stop
           [[py "btn-start.n_clicks"]; [py "btn-start.n_clicks"];
            [py "btn-stop.n_clicks"]; [py "btn-start.n_clicks"]]
           init_controls init_world).
Defined.

Lemma ledger_rows_are_named_witness :
  reachable working_env scenario_polled
  /\ length (items (state scenario_polled)) = 2
  /\ Forall (fun it => item it <> [] /\ (0 <= qty it)%Z)
            (items (state scenario_polled)).
Proof.
  split; [exact scenario_polled_reachable|].
  split; [vm_compute; reflexivity|].
  apply Forall_forall.
  apply (ledger_rows_are_named working_env scenario_polled).
  exact scenario_polled_reachable.
Defined.

Lemma texts_are_normalised_witness :
  let w := snd (listener_heard (py " Two TEA ") scenario_polled) in
  strip (customer_name (state w)) = customer_name (state w)
  /\ forall raw, In raw (speech_queue (state w)) ->
                 strip (lower raw) = raw.
Proof.
  apply (texts_are_normalised working_env
           (snd (listener_heard (py " Two TEA ") scenario_polled))).
  eapply reach_step; [exact scenario_polled_reachable|apply step_heard].
Defined.
